(** * Title resolution engine of the movie chatbot (actions/actions.py)

    A shallow embedding of the Python module [actions/actions.py] and the
    properties of its title resolution engine: text normalisation, title
    extraction from an utterance, case-insensitive field access, the
    memoised dataset index, the exact/fuzzy resolver and the events returned
    by the action.

    Modelling conventions.
    - A Python [str] is a list of code points.  The model covers the code
      points U+0000..U+00FF, one [ascii] each (read as Latin-1); [lower],
      [isspace] and the regular-expression classes are the Unicode ones
      restricted to that range.
    - A [float] score of [difflib] is the exact rational it rounds: a ratio
      [2*m/t] is a [Q].  Comparing two such ratios, or one with the literal
      [0.8], gives the same answer on rationals and on IEEE doubles as long
      as the summed lengths stay below [2^26], far above any title length.
    - A [dict] read in insertion order and compared key by key (a CSV row) is
      an association list; a [dict] used as a map is a [gmap]; a [set] is a
      [gset], iterated in an order the program does not control.
    - Module-level mutable state ([_DATASET_CACHE]) and the file system are
      threaded explicitly. *)

From Stdlib Require Import Ascii String List Arith ZArith QArith Lia.
From stdpp Require Import gmap strings list.
Import ListNotations.

Local Open Scope nat_scope.
Local Open Scope list_scope.

(** ** Strings *)

Definition str := list ascii.

(** A string literal of the source. *)
Definition lit (s : string) : str := list_ascii_of_string s.

Definition code (c : ascii) : nat := nat_of_ascii c.

Definition char_eqb (c d : ascii) : bool := Ascii.eqb c d.

(** [str.isspace] on one code point: TAB..CR, FS..US, SPACE, NEL, NBSP. *)
Definition isspace (c : ascii) : bool :=
  let n := code c in
  ((9 <=? n) && (n <=? 13)) || ((28 <=? n) && (n <=? 32))
  || (n =? 133) || (n =? 160).

(** [str.lower] on one code point: A-Z, and the Latin-1 capitals
    U+00C0..U+00DE except the multiplication sign U+00D7. *)
Definition lower_char (c : ascii) : ascii :=
  let n := code c in
  if ((65 <=? n) && (n <=? 90))
     || ((192 <=? n) && (n <=? 222) && negb (n =? 215))
  then ascii_of_nat (n + 32) else c.

Definition lower (s : str) : str := map lower_char s.

(** [s.lstrip(...)], [s.rstrip(...)], [s.strip(...)] for a class [p] of
    characters. *)
Fixpoint lstrip_by (p : ascii -> bool) (s : str) : str :=
  match s with
  | [] => []
  | c :: r => if p c then lstrip_by p r else s
  end.

Fixpoint rstrip_by (p : ascii -> bool) (s : str) : str :=
  match s with
  | [] => []
  | c :: r =>
      match rstrip_by p r with
      | [] => if p c then [] else [c]
      | r' => c :: r'
      end
  end.

Definition strip_by (p : ascii -> bool) (s : str) : str :=
  lstrip_by p (rstrip_by p s).

(** [s.strip()] *)
Definition strip (s : str) : str := strip_by isspace s.

(** [s.strip(chars)] *)
Definition in_chars (chars : str) (c : ascii) : bool := existsb (char_eqb c) chars.
Definition strip_chars (chars s : str) : str := strip_by (in_chars chars) s.

(** [s.startswith(p)] *)
Fixpoint startswith (s p : str) : bool :=
  match p, s with
  | [], _ => true
  | _ :: _, [] => false
  | d :: p', c :: s' => char_eqb c d && startswith s' p'
  end.

(** [s.replace(p, empty, 1)]: the leftmost occurrence of [p] is cut out. *)
Fixpoint remove_first (p s : str) : str :=
  if startswith s p then skipn (length p) s
  else match s with
       | [] => []
       | c :: r => c :: remove_first p r
       end.

(** [p in s] for strings. *)
Fixpoint contains (s p : str) : bool :=
  startswith s p || match s with [] => false | _ :: r => contains r p end.

(** ** The normaliser (normalize_title) *)

Definition is_lower_az (c : ascii) : bool := (97 <=? code c) && (code c <=? 122).
Definition is_digit (c : ascii) : bool := (48 <=? code c) && (code c <=? 57).

(** the class [[a-z0-9\s]] *)
Definition keep_char (c : ascii) : bool := is_lower_az c || is_digit c || isspace c.

Definition space : ascii := " "%char.

(** [re.sub] of every character outside the class by one space. *)
Definition sub_non_alnum (t : str) : str :=
  map (fun c => if keep_char c then c else space) t.

(** [re.sub] of every maximal whitespace run by one space: [in_run] tells
    that the previous character belongs to a run whose replacement is
    already written. *)
Fixpoint sub_ws_runs (in_run : bool) (t : str) : str :=
  match t with
  | [] => []
  | c :: r =>
      if isspace c then
        if in_run then sub_ws_runs true r else space :: sub_ws_runs true r
      else c :: sub_ws_runs false r
  end.

Definition collapse_ws (t : str) : str := sub_ws_runs false t.

(** [normalize_title]; [None] is an absent title. *)
Definition normalize_title (title : option str) : str :=
  match title with
  | None => []
  | Some [] => []
  | Some title =>
      let t := strip (lower title) in
      let t := sub_non_alnum t in
      strip (collapse_ws t)
  end.

(** ** The query extractor (extract_title_from_text) *)

(** The double quote, U+0022. *)
Definition dquote : ascii := ascii_of_nat 34.
Definition is_dquote (c : ascii) : bool := char_eqb c dquote.

(** The tail of the pattern (one or more characters other than the double
    quote, then a double quote) read from [s]: the captured group and what
    follows the closing quote. *)
Fixpoint scan_group (s : str) : option (str * str) :=
  match s with
  | [] => None
  | c :: r =>
      if is_dquote c then Some ([], r)
      else match scan_group r with
           | Some (g, t) => Some (c :: g, t)
           | None => None
           end
  end.

(** A match of the whole pattern that starts at the head of [s]. *)
Definition match_at (s : str) : option (str * str) :=
  match s with
  | [] => None
  | c :: r =>
      if is_dquote c then
        match scan_group r with
        | Some ((_ :: _) as g, t) => Some (g, t)
        | _ => None
        end
      else None
  end.

(** [re.findall] for the quoted-title pattern: leftmost matches, not
    overlapping; after a match the search resumes behind it, otherwise one
    character on. *)
Fixpoint findall_from (fuel : nat) (s : str) : list str :=
  match fuel with
  | 0 => []
  | S fuel' =>
      match s with
      | [] => []
      | _ :: r =>
          match match_at s with
          | Some (g, t) => g :: findall_from fuel' t
          | None => findall_from fuel' r
          end
      end
  end.

Definition findall_quoted (s : str) : list str := findall_from (S (length s)) s.

Definition phrases : list str :=
  [ lit "tell me about"; lit "what is"; lit "info for"; lit "details for";
    lit "plot of"; lit "duration of"; lit "story of"; lit "how long is" ].

(** One turn of the loop over [phrases]. *)
Definition strip_phrase (cleaned p : str) : str :=
  if startswith cleaned p then remove_first p cleaned else cleaned.

Definition strip_phrases (ps : list str) (text : str) : str :=
  fold_left strip_phrase ps text.

(** The argument of the final [strip]: space, [?!.,], space, the letters
    [s y n c], the single and the double quote. *)
Definition trim_set : str := lit " ?!., sync'" ++ [dquote].

Definition extract_title_from_text (text : str) : str :=
  let text := strip (lower text) in
  match findall_quoted text with
  | q :: _ => strip q
  | [] => strip_chars trim_set (strip_phrases phrases text)
  end.

(** ** Rows and the field accessor (get_row_value_case_insensitive) *)

(** A value of a CSV row (and a key of it): [None], a [str], or any other
    object, kept as the text [str()] gives for it. *)
Inductive PyVal : Type :=
  | PyNone
  | PyStr (s : str)
  | PyObj (repr : str).

Definition py_str (v : PyVal) : str :=
  match v with
  | PyNone => lit "None"
  | PyStr s => s
  | PyObj r => r
  end.

Definition str_eqb (a b : str) : bool := bool_decide (a = b).

(** A row in the order of [row.items()]. *)
Definition Row := list (PyVal * PyVal).

Fixpoint get_row_value_case_insensitive (row : Row) (key : str) : str :=
  match row with
  | [] => []
  | (k, v) :: rest =>
      if str_eqb (lower (py_str k)) (lower key) then
        match v with
        | PyNone => []
        | _ => py_str v
        end
      else get_row_value_case_insensitive rest key
  end.

(** ** difflib.SequenceMatcher(None, a, b) and similarity

    The standard-library matcher as [similarity] calls it: no junk predicate
    ([isjunk] is [None], so [bjunk] is empty) and the default
    [autojunk=True]. *)

Definition Block : Type := nat * nat * nat.       (* Match(a, b, size) *)
Definition Window : Type := nat * nat * nat * nat. (* alo, ahi, blo, bhi *)

(** The indices [j0 + j] with [s[j] = x], in increasing order. *)
Fixpoint indices_from (j0 : nat) (x : ascii) (s : str) : list nat :=
  match s with
  | [] => []
  | c :: r =>
      if char_eqb c x then j0 :: indices_from (S j0) x r
      else indices_from (S j0) x r
  end.

Section SequenceMatcher.
Variables a b : str.

Definition a_at (i : nat) : ascii := nth i a zero.
Definition b_at (j : nat) : ascii := nth j b zero.

(** [__chain_b]: an element of [b] is popular, and purged from [b2j], when
    [b] has at least 200 elements and the element occurs more than
    [len(b) // 100 + 1] times. *)
Definition popular (x : ascii) : bool :=
  (200 <=? length b) && (length b / 100 + 1 <? length (indices_from 0 x b)).

(** [b2j.get(x, [])] *)
Definition b2j (x : ascii) : list nat :=
  if popular x then [] else indices_from 0 x b.

(** [self.bjunk.__contains__]: [bjunk] is the empty set. *)
Definition isbjunk (x : ascii) : bool := false.

(** [j2len.get(j-1, 0)]; a dictionary read with default 0 is a total
    function. *)
Definition j2lenget (j2len : nat -> nat) (j : nat) : nat :=
  match j with
  | 0 => 0
  | S j' => j2len j'
  end.

Definition better (best : Block) (i j k : nat) : Block :=
  let '(_, _, bestsize) := best in
  if bestsize <? k then (i + 1 - k, j + 1 - k, k) else best.

(** The loop [for j in b2j.get(a[i], nothing)] of [find_longest_match]. *)
Fixpoint row_loop (js : list nat) (i blo bhi : nat) (j2len newj2len : nat -> nat)
         (best : Block) : (nat -> nat) * Block :=
  match js with
  | [] => (newj2len, best)
  | j :: js' =>
      if j <? blo then row_loop js' i blo bhi j2len newj2len best
      else if bhi <=? j then (newj2len, best)
      else
        let k := j2lenget j2len j + 1 in
        row_loop js' i blo bhi j2len
                 (fun x => if x =? j then k else newj2len x)
                 (better best i j k)
  end.

(** The loop [for i in range(alo, ahi)]. *)
Definition rows_loop (rows : list nat) (blo bhi : nat)
           (st : (nat -> nat) * Block) : (nat -> nat) * Block :=
  fold_left
    (fun st i => row_loop (b2j (a_at i)) i blo bhi (fst st) (fun _ => 0) (snd st))
    rows st.

(** The [while] loops that grow the block to the left, resp. to the
    right, over elements whose junk status is [junk]; the bound is the
    number of positions left in the window. *)
Fixpoint extend_left (junk : bool) (alo blo : nat) (n : nat) (best : Block) : Block :=
  match n with
  | 0 => best
  | S n' =>
      let '(besti, bestj, bestsize) := best in
      if (alo <? besti) && (blo <? bestj)
         && Bool.eqb (isbjunk (b_at (bestj - 1))) junk
         && char_eqb (a_at (besti - 1)) (b_at (bestj - 1))
      then extend_left junk alo blo n' (besti - 1, bestj - 1, bestsize + 1)
      else best
  end.

Fixpoint extend_right (junk : bool) (ahi bhi : nat) (n : nat) (best : Block) : Block :=
  match n with
  | 0 => best
  | S n' =>
      let '(besti, bestj, bestsize) := best in
      if (besti + bestsize <? ahi) && (bestj + bestsize <? bhi)
         && Bool.eqb (isbjunk (b_at (bestj + bestsize))) junk
         && char_eqb (a_at (besti + bestsize)) (b_at (bestj + bestsize))
      then extend_right junk ahi bhi n' (besti, bestj, bestsize + 1)
      else best
  end.

Definition find_longest_match (alo ahi blo bhi : nat) : Block :=
  let best := snd (rows_loop (seq alo (ahi - alo)) blo bhi
                             (fun _ => 0, (alo, blo, 0))) in
  let best := extend_left false alo blo (ahi - alo) best in
  let best := extend_right false ahi bhi (ahi - alo) best in
  let best := extend_left true alo blo (ahi - alo) best in
  extend_right true ahi bhi (ahi - alo) best.

(** The work-list loop of [get_matching_blocks]; the head of [queue] is
    the end of the Python list, where [append] and [pop] work. *)
Fixpoint blocks_loop (fuel : nat) (queue : list Window) (acc : list Block)
  : list Block :=
  match fuel with
  | 0 => acc
  | S fuel' =>
      match queue with
      | [] => acc
      | (alo, ahi, blo, bhi) :: queue' =>
          let '(i, j, k) := find_longest_match alo ahi blo bhi in
          if k =? 0 then blocks_loop fuel' queue' acc
          else
            let q1 := if (alo <? i) && (blo <? j)
                      then (alo, i, blo, j) :: queue' else queue' in
            let q2 := if (i + k <? ahi) && (j + k <? bhi)
                      then (i + k, ahi, j + k, bhi) :: q1 else q1 in
            blocks_loop fuel' q2 (acc ++ [(i, j, k)])
      end
  end.

(** [matching_blocks.sort()]: tuples in lexicographic order. *)
Definition block_leb (x y : Block) : bool :=
  let '(i1, j1, k1) := x in
  let '(i2, j2, k2) := y in
  (i1 <? i2) || ((i1 =? i2) && ((j1 <? j2) || ((j1 =? j2) && (k1 <=? k2)))).

Fixpoint insert_block (x : Block) (l : list Block) : list Block :=
  match l with
  | [] => [x]
  | y :: r => if block_leb x y then x :: l else y :: insert_block x r
  end.

Definition sort_blocks (l : list Block) : list Block :=
  fold_right insert_block [] l.

(** The pass that merges adjacent blocks. *)
Fixpoint collapse_loop (l : list Block) (cur : Block) (out : list Block)
  : list Block :=
  let '(i1, j1, k1) := cur in
  match l with
  | [] => if k1 =? 0 then out else out ++ [cur]
  | (i2, j2, k2) :: r =>
      if (i1 + k1 =? i2) && (j1 + k1 =? j2)
      then collapse_loop r (i1, j1, k1 + k2) out
      else collapse_loop r (i2, j2, k2) (if k1 =? 0 then out else out ++ [cur])
  end.

(** [get_matching_blocks]: each turn of the loop takes a window off the
    queue and queues at most two windows that are narrower by the block
    found, so [2 * len(a) + 1] turns empty the queue. *)
Definition get_matching_blocks : list Block :=
  let la := length a in
  let lb := length b in
  let found := blocks_loop (2 * la + 1) [(0, la, 0, lb)] [] in
  collapse_loop (sort_blocks found) (0, 0, 0) [] ++ [(la, lb, 0)].

Definition block_size (x : Block) : nat := snd x.

Definition sum_sizes (l : list Block) : nat :=
  fold_right (fun x s => block_size x + s) 0 l.

(** [sum(triple[-1] for triple in self.get_matching_blocks())] *)
Definition matches : nat := sum_sizes get_matching_blocks.

End SequenceMatcher.

(** [_calculate_ratio(matches, length)] *)
Definition calculate_ratio (m len : nat) : Q :=
  match len with
  | 0 => 1%Q
  | S _ => Qmake (2 * Z.of_nat m) (Pos.of_nat len)
  end.

(** [SequenceMatcher.ratio] *)
Definition ratio (a b : str) : Q :=
  calculate_ratio (matches a b) (length a + length b).

Definition similarity (a b : str) : Q := ratio a b.

(** [x < y] on scores. *)
Definition Qltb (x y : Q) : bool := negb (Qle_bool y x).

(** The literal [0.8]. *)
Definition threshold : Q := 8 # 10.

(** ** The dataset index (build_dataset_index) *)

Record Index : Type := mkIndex {
  rows_by_norm : gmap str Row;
  titles_set : gset str
}.

Definition empty_index : Index := mkIndex ∅ ∅.

(** The body of the loop over the rows of the reader. *)
Definition index_row (idx : Index) (row : Row) : Index :=
  match strip (get_row_value_case_insensitive row (lit "title")) with
  | [] => idx
  | name =>
      let n := normalize_title (Some name) in
      mkIndex (<[n := row]> (rows_by_norm idx)) ({[n]} ∪ titles_set idx)
  end.

Definition index_rows (rows : list Row) : Index :=
  fold_left index_row rows empty_index.

(** What [csv.DictReader] yields for the file at a path; [None] when the
    file cannot be opened or read. *)
Definition FileSystem : Type := str -> option (list Row).

(** The process state: [_DATASET_CACHE], and the log of the paths whose file
    was opened. *)
Record State : Type := mkState {
  cache : gmap str Index;
  opened : list str
}.

Inductive Outcome (A : Type) : Type :=
  | Ok (x : A)
  | Raised.
Arguments Ok {A} x.
Arguments Raised {A}.

(** [path] is [str(dataset_path.resolve())]. *)
Definition build_dataset_index (fs : FileSystem) (path : str) (st : State)
  : Outcome Index * State :=
  match cache st !! path with
  | Some index => (Ok index, st)
  | None =>
      let st1 := mkState (cache st) (opened st ++ [path]) in
      match fs path with
      | None => (Raised, st1)
      | Some rows =>
          let index := index_rows rows in
          (Ok index, mkState (<[path := index]> (cache st1)) (opened st1))
      end
  end.

(** ** The action (ActionMovieDetailsFromDataset.run) *)

Inductive Event : Type :=
  | SlotSet (name : str) (value : option str).

(** Truth value of [row]: [None] and the empty dictionary are false. *)
Definition truthy_row (row : option Row) : bool :=
  match row with
  | Some (_ :: _) => true
  | _ => false
  end.

(** Truth value of a slot: [None] and the empty string are false. *)
Definition truthy_str (s : option str) : bool :=
  match s with
  | Some (_ :: _) => true
  | _ => false
  end.

Definition newline : str := [ascii_of_nat 10].

Definition duration_words : list str :=
  [lit "long"; lit "duration"; lit "time"; lit "length"].
Definition plot_words : list str :=
  [lit "plot"; lit "story"; lit "about"; lit "summary"].

(** The message uttered for a found row. *)
Definition describe_row (user_text : str) (row : Row) : str :=
  let name := get_row_value_case_insensitive row (lit "title") in
  let duration := get_row_value_case_insensitive row (lit "duration") in
  let plot := get_row_value_case_insensitive row (lit "description") in
  let year := get_row_value_case_insensitive row (lit "release_year") in
  if existsb (contains user_text) duration_words then
    lit "The duration of '" ++ name ++ lit "' is " ++ duration ++ lit "."
  else if existsb (contains user_text) plot_words then
    lit "The plot of '" ++ name ++ lit "': " ++ plot
  else
    name ++ lit " (" ++ year ++ lit ")" ++ newline ++ lit "- Duration: " ++ duration
         ++ newline ++ lit "- Summary: " ++ firstn 120 plot ++ lit "...".

Definition ask_message : str := lit "Which movie are you interested in?".

Definition not_found_message (raw_input : str) : str :=
  lit "I couldn't find '" ++ raw_input ++ lit "' in the dataset.".

Section Action.
(** The order in which a [for] loop visits a set is not fixed by the
    program: any enumeration of the elements. *)
Variable iter_order : gset str -> list str.
Hypothesis iter_order_perm : forall X : gset str, iter_order X ≡ₚ elements X.

(** [get_project_root() / "data" / "netflix_titles.csv"], resolved. *)
Variable dataset_path : str.

(** One turn of the fuzzy loop on [(best_match, best_score)]. *)
Definition scan_step (target_norm : str) (best : option str * Q) (db_title_norm : str)
  : option str * Q :=
  let score := similarity target_norm db_title_norm in
  if Qltb (snd best) score then (Some db_title_norm, score) else best.

Definition fuzzy_scan (target_norm : str) (index : Index) : option str * Q :=
  fold_left (scan_step target_norm) (iter_order (titles_set index)) (None, 0%Q).

(** Lines 176-186: the row for a non-empty normalised title. *)
Definition resolve_row (target_norm : str) (index : Index) : option Row :=
  let row := rows_by_norm index !! target_norm in
  if truthy_row row then row
  else
    let '(best_match, best_score) := fuzzy_scan target_norm index in
    if Qltb threshold best_score then
      match best_match with
      | Some t => rows_by_norm index !! t
      | None => None
      end
    else row.

(** [raw_input] of [run]. *)
Definition raw_input_of (movie_title_slot : option str) (user_text : str) : str :=
  match movie_title_slot with
  | Some ((_ :: _) as s) => s
  | _ => extract_title_from_text user_text
  end.

(** [run]: the slot [movie_title], the text of the latest message, the
    files and the state; the messages uttered and the events returned, or
    the exception of the index build. *)
Definition run (movie_title_slot : option str) (text : str)
           (fs : FileSystem) (st : State)
  : Outcome (list str * list Event) * State :=
  let user_text := lower text in
  let raw_input := raw_input_of movie_title_slot user_text in
  let target_norm := normalize_title (Some raw_input) in
  match target_norm with
  | [] => (Ok ([ask_message], []), st)
  | _ =>
      match build_dataset_index fs dataset_path st with
      | (Raised, st') => (Raised, st')
      | (Ok index, st') =>
          let row := resolve_row target_norm index in
          let message :=
            match row with
            | Some ((_ :: _) as r) => describe_row user_text r
            | _ => not_found_message raw_input
            end in
          (Ok ([message], [SlotSet (lit "movie_title") None]), st')
      end
  end.

End Action.

(** ** Definitions used to state the properties *)

(** A field name matches a key when both are equal after lower-casing. *)
Definition key_matches (key : str) (kv : PyVal * PyVal) : Prop :=
  lower (py_str (fst kv)) = lower key.

(** A sequence of [build_dataset_index] calls, each with the files as they
    are at that time; the outcomes are dropped, the state is threaded. *)
Definition run_builds (calls : list (FileSystem * str)) (st : State) : State :=
  fold_left (fun st c => snd (build_dataset_index (fst c) (snd c) st)) calls st.

(** [p] is not a prefix of [s]. *)
Definition not_prefixed (s p : str) : Prop := startswith s p = false.

(** How often the file at [path] has been opened. *)
Definition times_opened (path : str) (st : State) : nat :=
  length (List.filter (str_eqb path) (opened st)).

(** The pattern of the extractor matches in [text] right behind [pre]: a
    double quote, the non-empty group [body] free of double quotes, a
    double quote. *)
Definition quoted_at (text pre body post : str) : Prop :=
  text = pre ++ dquote :: body ++ dquote :: post
  /\ body <> []
  /\ Forall (fun c => c <> dquote) body.

(** [body] is the group of the leftmost match of the pattern in [text]: no
    match starts further left. *)
Definition leftmost_match (text body : str) : Prop :=
  exists pre post,
    quoted_at text pre body post
    /\ forall pre' body' post',
         quoted_at text pre' body' post' -> length pre <= length pre'.

(** The group of the leftmost match, the head of what [re.findall] lists. *)
Fixpoint first_group (s : str) : option str :=
  match s with
  | [] => None
  | _ :: r =>
      match match_at s with
      | Some (g, _) => Some g
      | None => first_group r
      end
  end.

(** *** The words of the specification, spelled out on their own

    Nothing below is taken from the embedding of the code: whitespace and
    letters are given by their code points, the steps by their own
    recursions. *)

(** The whitespace characters of the range: TAB, LF, VT, FF, CR, FS, GS,
    RS, US, SPACE, NEL, NBSP. *)
Definition whitespace_codes : list nat :=
  [9; 10; 11; 12; 13; 28; 29; 30; 31; 32; 133; 160].

Definition is_whitespace (c : ascii) : bool :=
  existsb (Nat.eqb (nat_of_ascii c)) whitespace_codes.

(** [c] is one of [chars]. *)
Definition char_in (c : ascii) (chars : str) : bool := existsb (Ascii.eqb c) chars.

(** The capital letters of the range, A-Z and U+00C0..U+00DE without the
    multiplication sign, and position by position their lowercase forms. *)
Definition capital_letters : str :=
  lit "ABCDEFGHIJKLMNOPQRSTUVWXYZ" ++ map ascii_of_nat (seq 192 23 ++ seq 216 7).

Definition small_letters : str :=
  lit "abcdefghijklmnopqrstuvwxyz" ++ map ascii_of_nat (seq 224 23 ++ seq 248 7).

(** The lowercase letters of the range: those above, the micro sign, the
    sharp s and the y with diaeresis, which have no capital in the range. *)
Definition lowercase_letters : str :=
  small_letters ++ map ascii_of_nat [181; 223; 255].

Definition ascii_small_letters : str := lit "abcdefghijklmnopqrstuvwxyz".
Definition ascii_digits : str := lit "0123456789".

(** [c] read in the alphabet [to] at the place it has in [from]. *)
Fixpoint translate (from to : str) (c : ascii) : ascii :=
  match from, to with
  | f :: from', t :: to' => if Ascii.eqb c f then t else translate from' to' c
  | _, _ => c
  end.

(** Lower-casing. *)
Definition to_lowercase (s : str) : str :=
  map (translate capital_letters small_letters) s.

(** Every character outside the class [keep] replaced by one space. *)
Definition replace_outside (keep : ascii -> bool) (s : str) : str :=
  map (fun c => if keep c then c else space) s.

(** Every run of whitespace collapsed to one space: a whitespace character
    followed by whitespace is dropped, the last one of a run becomes the
    space. *)
Fixpoint collapse_runs (s : str) : str :=
  match s with
  | [] => []
  | c :: r =>
      if is_whitespace c then
        match r with
        | d :: _ => if is_whitespace d then collapse_runs r else space :: collapse_runs r
        | [] => [space]
        end
      else c :: collapse_runs r
  end.

Fixpoint drop_whitespace (s : str) : str :=
  match s with
  | [] => []
  | c :: r => if is_whitespace c then drop_whitespace r else s
  end.

(** Leading and trailing whitespace trimmed. *)
Definition trim (s : str) : str :=
  rev (drop_whitespace (rev (drop_whitespace s))).

(** The four steps of the normaliser for a class [letter] of letters kept;
    an absent title gives the empty string. *)
Definition normalize_with (letter : ascii -> bool) (title : option str) : str :=
  match title with
  | None => []
  | Some s =>
      trim (collapse_runs
              (replace_outside
                 (fun c => letter c || char_in c ascii_digits || is_whitespace c)
                 (to_lowercase s)))
  end.

(** The normaliser as the specification words it: every lowercase letter
    is kept. *)
Definition normalize_as_worded (title : option str) : str :=
  normalize_with (fun c => char_in c lowercase_letters) title.

(** The normaliser with the letters a-z only. *)
Definition normalize_spec (title : option str) : str :=
  normalize_with (fun c => char_in c ascii_small_letters) title.

(** The contents of the double-quoted parts of a text, the double quotes
    paired in the order they come: the first with the second, the third
    with the fourth, and so on; [cur] is the content read so far behind an
    opening quote. *)
Fixpoint pair_quotes (cur : option str) (s : str) : list str :=
  match s with
  | [] => []
  | c :: r =>
      if Ascii.eqb c dquote then
        match cur with
        | None => pair_quotes (Some []) r
        | Some body => body :: pair_quotes None r
        end
      else
        match cur with
        | None => pair_quotes None r
        | Some body => pair_quotes (Some (body ++ [c])) r
        end
  end.

Definition quoted_parts (s : str) : list str := pair_quotes None s.

(** The keys of [rows_by_norm] are the titles of [titles_set], and only
    rows with a title, hence non-empty ones, are indexed. *)
Definition index_wf (index : Index) : Prop :=
  (forall n, n ∈ titles_set index <-> is_Some (rows_by_norm index !! n))
  /\ (forall n r, rows_by_norm index !! n = Some r -> r <> []).

(** *** Ratcliff/Obershelp matching, as the specification words it *)

(** [w] is a contiguous block common to [x] and [y]. *)
Definition common_block (w x y : str) : Prop :=
  exists x1 x2 y1 y2, x = x1 ++ w ++ x2 /\ y = y1 ++ w ++ y2.

(** [ro_matched x y m]: [m] characters are matched between [x] and [y] by
    taking a longest common contiguous block, matching what lies left of
    it in [x] with what lies left of it in [y], likewise on the right, and
    adding up the lengths; without a common character nothing matches. *)
Inductive ro_matched : str -> str -> nat -> Prop :=
  | ro_none x y :
      (forall w, common_block w x y -> w = []) ->
      ro_matched x y 0
  | ro_split x1 w x2 y1 y2 m1 m2 :
      w <> [] ->
      (forall w', common_block w' (x1 ++ w ++ x2) (y1 ++ w ++ y2) ->
                  length w' <= length w) ->
      ro_matched x1 y1 m1 ->
      ro_matched x2 y2 m2 ->
      ro_matched (x1 ++ w ++ x2) (y1 ++ w ++ y2) (length w + m1 + m2).

(** The score [2*matched / (len(x) + len(y))]; two empty strings, for which
    the quotient is not defined, are identical and score 1. *)
Definition ro_ratio (m : nat) (x y : str) : Q :=
  match (length x + length y)%nat with
  | 0%nat => 1%Q
  | S _ as t => Qmake (2 * Z.of_nat m) (Pos.of_nat t)
  end.

(** *** The matcher, window by window *)

(** [s[lo:hi]] *)
Definition slice (s : str) (lo hi : nat) : str := firstn (hi - lo) (skipn lo s).

Definition window_ok (a b : str) (w : Window) : Prop :=
  let '(alo, ahi, blo, bhi) := w in
  alo <= ahi /\ ahi <= length a /\ blo <= bhi /\ bhi <= length b.

(** The windows [get_matching_blocks] queues left and right of a block. *)
Definition left_of (w : Window) (x : Block) : option Window :=
  let '(alo, ahi, blo, bhi) := w in
  let '(i, j, k) := x in
  if (alo <? i) && (blo <? j) then Some (alo, i, blo, j) else None.

Definition right_of (w : Window) (x : Block) : option Window :=
  let '(alo, ahi, blo, bhi) := w in
  let '(i, j, k) := x in
  if (i + k <? ahi) && (j + k <? bhi) then Some (i + k, ahi, j + k, bhi) else None.

(** The sizes of the blocks found in a window and below it. *)
Inductive matched_in (a b : str) : option Window -> nat -> Prop :=
  | matched_skip : matched_in a b None 0
  | matched_zero alo ahi blo bhi :
      block_size (find_longest_match a b alo ahi blo bhi) = 0 ->
      matched_in a b (Some (alo, ahi, blo, bhi)) 0
  | matched_split alo ahi blo bhi m1 m2 :
      let x := find_longest_match a b alo ahi blo bhi in
      block_size x <> 0 ->
      matched_in a b (left_of (alo, ahi, blo, bhi) x) m1 ->
      matched_in a b (right_of (alo, ahi, blo, bhi) x) m2 ->
      matched_in a b (Some (alo, ahi, blo, bhi)) (block_size x + m1 + m2).

(** The element [x] of [a] meets [b[j]] inside the columns [blo..bhi) and is
    not popular. *)
Definition hit (b : str) (x : ascii) (blo bhi j : nat) : bool :=
  (blo <=? j) && (j <? bhi) && (j <? length b)
  && char_eqb (b_at b j) x && negb (popular b x).

(** The length of the run of hits that ends at [a[i]], [b[j]] and starts
    no earlier than row [alo]: what [j2len] holds for column [j] after
    row [i]. *)
Fixpoint run_len (a b : str) (alo blo bhi : nat) (i j : nat) {struct i} : nat :=
  if hit b (a_at a i) blo bhi j then
    S (match i, j with
       | S i', S j' => if alo <=? i' then run_len a b alo blo bhi i' j' else 0
       | _, _ => 0
       end)
  else 0.

(** One cell of the table: the update of [best] at [a[i]], [b[j]]. *)
Definition cell_step (a b : str) (alo blo bhi : nat) (i : nat) (best : Block) (j : nat)
  : Block :=
  better best i j (run_len a b alo blo bhi i j).

Definition row_step (a b : str) (alo blo bhi : nat) (best : Block) (i : nat) : Block :=
  fold_left (cell_step a b alo blo bhi i) (seq 0 (length b)) best.

(** What a block must satisfy inside its window. *)
Definition block_ok (a b : str) (w : Window) (x : Block) : Prop :=
  let '(alo, ahi, blo, bhi) := w in
  let '(i, j, k) := x in
  alo <= i /\ i + k <= ahi /\ blo <= j /\ j + k <= bhi
  /\ forall d, d < k -> a_at a (i + d) = b_at b (j + d).

(** What [j2len] holds when row [i] starts. *)
Definition row_before (a b : str) (alo blo bhi : nat) (i j : nat) : nat :=
  match i with
  | S i' => if alo <=? i' then run_len a b alo blo bhi i' j else 0
  | 0 => 0
  end.

(** The invariant of the table phase: the best block so far lies in the
    window and is made of hits. *)
Definition best_ok (a b : str) (alo blo bhi ahi : nat) (best : Block) : Prop :=
  let '(bi, bj, bs) := best in
  alo <= bi /\ bi + bs <= ahi /\ blo <= bj /\ bj + bs <= bhi
  /\ forall d, d < bs ->
       a_at a (bi + d) = b_at b (bj + d) /\ popular b (a_at a (bi + d)) = false.

(** Where the best block so far comes from: it is the initial one, or it
    ends at a cell whose run is longer than every run in the rows before
    and in the columns before it in its row. *)
Definition best_from (a b : str) (alo blo bhi ahi : nat) (best : Block) : Prop :=
  best = (alo, blo, 0)
  \/ exists i j,
       alo <= i < ahi
       /\ best = (i + 1 - run_len a b alo blo bhi i j,
                  j + 1 - run_len a b alo blo bhi i j,
                  run_len a b alo blo bhi i j)
       /\ 0 < run_len a b alo blo bhi i j
       /\ (forall i' j', alo <= i' < i ->
             run_len a b alo blo bhi i' j' < run_len a b alo blo bhi i j)
       /\ (forall j', j' < j ->
             run_len a b alo blo bhi i j' < run_len a b alo blo bhi i j).

(** A bound on the turns the work-list loop still takes. *)
Definition queue_weight (queue : list Window) : nat :=
  fold_right (fun w s => let '(alo, ahi, _, _) := w in 2 * (ahi - alo) + 1 + s) 0 queue.

(** ** The genre action (ActionSuggestMoviesByGenre.run) *)

(** What the dispatcher is asked to utter: a text, or a response template
    of the domain. *)
Inductive Utterance : Type :=
  | UtterText (text : str)
  | UtterResponse (response : str).

(** The dictionary literal [movies_by_genre], in source order. *)
Definition movies_by_genre : list (str * list str) :=
  [ (lit "comedy",
     [lit "Superbad"; lit "The Hangover"; lit "Mean Girls"; lit "Step Brothers";
      lit "Booksmart"]);
    (lit "action",
     [lit "Mad Max: Fury Road"; lit "John Wick"; lit "Gladiator"; lit "Die Hard";
      lit "The Dark Knight"]);
    (lit "drama",
     [lit "Forrest Gump"; lit "The Shawshank Redemption"; lit "Fight Club";
      lit "The Godfather"; lit "Parasite"]);
    (lit "thriller",
     [lit "Se7en"; lit "Gone Girl"; lit "Shutter Island";
      lit "The Silence of the Lambs"; lit "Nightcrawler"]);
    (lit "horror",
     [lit "Get Out"; lit "The Conjuring"; lit "Hereditary"; lit "A Quiet Place";
      lit "It"]);
    (lit "sci-fi",
     [lit "Inception"; lit "Interstellar"; lit "The Matrix"; lit "Blade Runner 2049";
      lit "Arrival"]) ].

(** [d.get(k)] on a dictionary literal. *)
Fixpoint dict_get {V : Type} (d : list (str * V)) (k : str) : option V :=
  match d with
  | [] => None
  | (k', v) :: rest => if str_eqb k' k then Some v else dict_get rest k
  end.

(** [sep.join(l)] *)
Fixpoint join (sep : str) (l : list str) : str :=
  match l with
  | [] => []
  | [x] => x
  | x :: r => x ++ sep ++ join sep r
  end.

(** [run] of the genre action: the slot [genre]; the utterances and the
    events returned. *)
Definition suggest_movies_by_genre (genre : option str) : list Utterance * list Event :=
  match genre with
  | Some ((_ :: _) as g) =>
      let genre := lower g in
      match dict_get movies_by_genre genre with
      | Some movies =>
          ([UtterText (lit "Here are 5 " ++ genre ++ lit " movies you might like: "
                           ++ join (lit ", ") movies ++ lit ".")], [])
      | None =>
          ([UtterText (lit "I don't have 5 suggestions for '" ++ genre ++ lit "' yet.")],
           [])
      end
  | _ => ([UtterResponse (lit "utter_ask_genre")], [])
  end.

(** ** Further definitions used to state properties *)

(** [s] occurs in [t] as a contiguous part. *)
Definition part_of (s t : str) : Prop := exists pre post, t = pre ++ s ++ post.

(** Whitespace occurs only as single spaces, and not right after a space
    when [after_space] is set. *)
Fixpoint single_spaces (after_space : bool) (s : str) : bool :=
  match s with
  | [] => true
  | c :: r =>
      if isspace c then char_eqb c space && negb after_space && single_spaces true r
      else single_spaces false r
  end.

(** The shape of a normalised title: lowercase letters, digits and single
    spaces, no space at either end. *)
Definition normalized (s : str) : Prop :=
  Forall (fun c => is_lower_az c || is_digit c || char_eqb c space = true) s
  /\ single_spaces true s = true
  /\ rstrip_by isspace s = s.

(** The title of a row as the indexer reads it, and the key it files the
    row under. *)
Definition row_title (row : Row) : str :=
  strip (get_row_value_case_insensitive row (lit "title")).

Definition row_key (row : Row) : str := normalize_title (Some (row_title row)).

(** The row has a title and is filed under [n]. *)
Definition filed_under (n : str) (row : Row) : bool :=
  match row_title row with
  | [] => false
  | _ => str_eqb (row_key row) n
  end.

(** The rows of the first call in [calls] that asks for [path] and finds
    its file readable. *)
Fixpoint first_read (path : str) (calls : list (FileSystem * str)) : option (list Row) :=
  match calls with
  | [] => None
  | (fs, p) :: rest =>
      if str_eqb p path then
        match fs p with
        | Some rows => Some rows
        | None => first_read path rest
        end
      else first_read path rest
  end.

(** * Properties *)

(** ** Characters and prefixes *)

Lemma char_eqb_eq c d : char_eqb c d = true <-> c = d.
Proof. unfold char_eqb. apply Ascii.eqb_eq. Qed.

Lemma char_eqb_refl c : char_eqb c c = true.
Proof. apply char_eqb_eq. reflexivity. Qed.

Lemma startswith_app p rest : startswith (p ++ rest) p = true.
Proof.
  induction p as [|d p IH]; simpl.
  - destruct rest; reflexivity.
  - rewrite char_eqb_refl. exact IH.
Qed.

Lemma startswith_inv s p :
  startswith s p = true -> exists rest, s = p ++ rest.
Proof.
  revert s. induction p as [|d p IH]; intros s H.
  - exists s. reflexivity.
  - destruct s as [|c s]; simpl in H; [discriminate|].
    apply andb_true_iff in H as [Hc Hs].
    apply char_eqb_eq in Hc. subst d.
    destruct (IH _ Hs) as [rest ->]. exists rest. reflexivity.
Qed.

Lemma skipn_length_app (p rest : str) : skipn (length p) (p ++ rest) = rest.
Proof. induction p; simpl; auto. Qed.

Lemma remove_first_unfold p s :
  remove_first p s
  = if startswith s p then skipn (length p) s
    else match s with
         | [] => []
         | c :: r => c :: remove_first p r
         end.
Proof. destruct s; reflexivity. Qed.

Lemma remove_first_prefix p rest : remove_first p (p ++ rest) = rest.
Proof.
  rewrite remove_first_unfold, startswith_app. apply skipn_length_app.
Qed.

(** ** The field accessor *)

Lemma str_eqb_true a b : str_eqb a b = true <-> a = b.
Proof. unfold str_eqb. apply bool_decide_eq_true. Qed.

Lemma str_eqb_false a b : str_eqb a b = false <-> a <> b.
Proof. unfold str_eqb. apply bool_decide_eq_false. Qed.

Lemma get_row_value_skip key pre row :
  Forall (fun kv => ~ key_matches key kv) pre ->
  get_row_value_case_insensitive (pre ++ row) key
  = get_row_value_case_insensitive row key.
Proof.
  induction 1 as [|[k v] pre Hk _ IH]; simpl; [reflexivity|].
  unfold key_matches in Hk. simpl in Hk.
  apply str_eqb_false in Hk. rewrite Hk. exact IH.
Qed.

(** C9. [getField] compares the field name with the keys of the record
    after lower-casing both, in the order of the record, and answers with
    the value of the first key that matches: the empty string when that
    value is the null marker, the text of the value otherwise.  When no key
    matches it answers the empty string.  It is a total function: every
    record and field name has an answer. *)
Theorem get_field_case_insensitive (row : Row) (key : str) :
  (Forall (fun kv => ~ key_matches key kv) row ->
   get_row_value_case_insensitive row key = [])
  /\ (forall pre k v post,
        row = pre ++ (k, v) :: post ->
        Forall (fun kv => ~ key_matches key kv) pre ->
        key_matches key (k, v) ->
        get_row_value_case_insensitive row key
        = match v with
          | PyNone => []
          | PyStr s => s
          | PyObj r => r
          end).
Proof.
  split.
  - intros H. rewrite <- (app_nil_r row). rewrite get_row_value_skip by exact H.
    reflexivity.
  - intros pre k v post -> Hpre Hk.
    rewrite get_row_value_skip by exact Hpre. simpl.
    unfold key_matches in Hk. simpl in Hk.
    apply str_eqb_true in Hk. rewrite Hk. destruct v; reflexivity.
Qed.

Lemma get_field_case_insensitive_witness :
  get_row_value_case_insensitive
    [(PyStr (lit "Title"), PyStr (lit "Up")); (PyStr (lit "duration"), PyNone)]
    (lit "TITLE") = lit "Up"
  /\ get_row_value_case_insensitive
       [(PyStr (lit "Title"), PyStr (lit "Up")); (PyStr (lit "duration"), PyNone)]
       (lit "Duration") = []
  /\ get_row_value_case_insensitive
       [(PyStr (lit "Title"), PyStr (lit "Up")); (PyStr (lit "duration"), PyNone)]
       (lit "year") = [].
Proof.
  set (row := [(PyStr (lit "Title"), PyStr (lit "Up")); (PyStr (lit "duration"), PyNone)]).
  split; [|split].
  - apply (proj2 (get_field_case_insensitive row (lit "TITLE"))
                 [] (PyStr (lit "Title")) (PyStr (lit "Up"))
                 [(PyStr (lit "duration"), PyNone)]).
    + reflexivity.
    + constructor.
    + reflexivity.
  - apply (proj2 (get_field_case_insensitive row (lit "Duration"))
                 [(PyStr (lit "Title"), PyStr (lit "Up"))]
                 (PyStr (lit "duration")) PyNone []).
    + reflexivity.
    + constructor; [|constructor]. unfold key_matches. simpl. discriminate.
    + reflexivity.
  - apply (proj1 (get_field_case_insensitive row (lit "year"))).
    repeat constructor; unfold key_matches; simpl; discriminate.
Defined.

(** ** The action: empty queries and returned events *)

(** C6. When the title hint (the slot, or else the title extracted from the
    utterance) normalises to the empty string, [run] utters the prompt for
    a title and returns at once: the state comes back as it was (same
    cache, no file opened), whatever the files are, also when the dataset
    cannot be opened. *)
Theorem run_empty_query
  (iter_order : gset str -> list str) (dataset_path : str)
  (movie_title_slot : option str) (text : str) (fs : FileSystem) (st : State) :
  normalize_title (Some (raw_input_of movie_title_slot (lower text))) = [] ->
  run iter_order dataset_path movie_title_slot text fs st
  = (Ok ([ask_message], []), st).
Proof.
  intros H. unfold run. rewrite H. reflexivity.
Qed.

Lemma run_empty_query_witness :
  run elements (lit "/data/netflix_titles.csv") None (lit "what is ??")
      (fun _ => None) (mkState ∅ [])
  = (Ok ([ask_message], []), mkState ∅ []).
Proof.
  apply run_empty_query. vm_compute. reflexivity.
Defined.

(** C10. The events [run] returns: none on the empty-query path, so the
    slot [movie_title] keeps its value; and whenever the index is obtained,
    exactly [SlotSet("movie_title", None)], with the state the index build
    left, both when a row is found and described and when the not-found
    message is uttered. *)
Theorem run_events
  (iter_order : gset str -> list str) (dataset_path : str)
  (movie_title_slot : option str) (text : str) (fs : FileSystem) (st : State) :
  let raw_input := raw_input_of movie_title_slot (lower text) in
  let target_norm := normalize_title (Some raw_input) in
  (target_norm = [] ->
   exists messages,
     run iter_order dataset_path movie_title_slot text fs st
     = (Ok (messages, []), st))
  /\ (target_norm <> [] ->
      forall index st',
        build_dataset_index fs dataset_path st = (Ok index, st') ->
        (forall r, resolve_row iter_order target_norm index = Some r -> r <> [] ->
           run iter_order dataset_path movie_title_slot text fs st
           = (Ok ([describe_row (lower text) r], [SlotSet (lit "movie_title") None]), st'))
        /\ (truthy_row (resolve_row iter_order target_norm index) = false ->
            run iter_order dataset_path movie_title_slot text fs st
            = (Ok ([not_found_message raw_input], [SlotSet (lit "movie_title") None]), st'))
        /\ exists messages,
            run iter_order dataset_path movie_title_slot text fs st
            = (Ok (messages, [SlotSet (lit "movie_title") None]), st')).
Proof.
  intros raw_input target_norm. split.
  - intros H. exists [ask_message]. unfold run.
    fold raw_input. fold target_norm. rewrite H. reflexivity.
  - intros Hne index st' Hb. unfold run.
    fold raw_input. fold target_norm.
    destruct target_norm as [|c t] eqn:Et; [congruence|].
    rewrite Hb. split; [|split].
    + intros r Hr Hrne. rewrite Hr. destruct r; [congruence|reflexivity].
    + intros Hf. destruct (resolve_row iter_order (c :: t) index) as [[|kv r]|];
        simpl in Hf; try discriminate; reflexivity.
    + eexists. reflexivity.
Qed.

Lemma run_events_witness :
  (exists messages,
     run elements (lit "/d.csv") None (lit "??") (fun _ => Some []) (mkState ∅ [])
     = (Ok (messages, []), mkState ∅ []))
  /\ (exists messages,
        run elements (lit "/d.csv") None (lit "up") (fun _ => Some []) (mkState ∅ [])
        = (Ok (messages, [SlotSet (lit "movie_title") None]),
           mkState (<[lit "/d.csv" := empty_index]> ∅) [lit "/d.csv"])).
Proof.
  split.
  - apply (proj1 (run_events elements (lit "/d.csv") None (lit "??")
                             (fun _ => Some []) (mkState ∅ []))).
    vm_compute. reflexivity.
  - refine (proj2 (proj2 (proj2 (run_events elements (lit "/d.csv") None (lit "up")
                                          (fun _ => Some []) (mkState ∅ []))
                                _ empty_index _ _))).
    + vm_compute. discriminate.
    + reflexivity.
Defined.

(** ** The index cache *)

Lemma build_hit fs path st index :
  cache st !! path = Some index ->
  build_dataset_index fs path st = (Ok index, st).
Proof. intros H. unfold build_dataset_index. rewrite H. reflexivity. Qed.

Lemma build_ok_cached fs path st index st' :
  build_dataset_index fs path st = (Ok index, st') ->
  cache st' !! path = Some index.
Proof.
  unfold build_dataset_index.
  destruct (cache st !! path) as [i|] eqn:E.
  - intros [= <- <-]. exact E.
  - destruct (fs path); [|discriminate].
    intros [= <- <-]. simpl. apply lookup_insert_eq.
Qed.

Lemma times_opened_other path path' c o :
  path <> path' ->
  times_opened path (mkState c (o ++ [path'])) = times_opened path (mkState c o).
Proof.
  intros Hne. unfold times_opened. simpl.
  rewrite List.filter_app, length_app. simpl.
  apply str_eqb_false in Hne. rewrite Hne. simpl. lia.
Qed.

(** A call never removes or replaces an entry of the cache, and logs an
    opening only for the path it was asked for, on a miss. *)
Lemma build_keeps fs path' st path index :
  cache st !! path = Some index ->
  let st' := snd (build_dataset_index fs path' st) in
  cache st' !! path = Some index
  /\ times_opened path st'
     = times_opened path st.
Proof.
  intros H. unfold build_dataset_index.
  destruct (cache st !! path') as [i|] eqn:E; simpl; [auto|].
  assert (path' <> path) as Hne by (intros ->; congruence).
  destruct (fs path'); simpl.
  - rewrite lookup_insert_ne by exact Hne. split; [exact H|].
    apply times_opened_other. congruence.
  - split; [exact H|].
    apply times_opened_other. congruence.
Qed.

Lemma run_builds_keeps calls st path index :
  cache st !! path = Some index ->
  cache (run_builds calls st) !! path = Some index
  /\ times_opened path (run_builds calls st)
     = times_opened path st.
Proof.
  revert st. induction calls as [|[fs p] calls IH]; intros st H; simpl.
  - auto.
  - destruct (build_keeps fs p st path index H) as [Hc Ho].
    destruct (IH _ Hc) as [Hc' Ho']. simpl in *. split; [exact Hc'|].
    rewrite Ho'. exact Ho.
Qed.

(** C8. After a call of [getIndex] for an identifier has succeeded, every
    later call for that identifier, after any other calls in between and
    whatever the files have become, returns the very index of the first
    call and leaves the state as it is: the cache is unchanged and the
    dataset is not opened again, so its path is logged as opened no more
    often than after the first call. *)
Theorem build_dataset_index_cached
  (fs : FileSystem) (path : str) (st st1 : State) (index : Index) :
  build_dataset_index fs path st = (Ok index, st1) ->
  forall (calls : list (FileSystem * str)) (fs' : FileSystem),
    let st2 := run_builds calls st1 in
    build_dataset_index fs' path st2 = (Ok index, st2)
    /\ times_opened path st2
       = times_opened path st1.
Proof.
  intros Hb calls fs' st2.
  apply build_ok_cached in Hb.
  destruct (run_builds_keeps calls st1 path index Hb) as [Hc Ho].
  split; [apply build_hit; exact Hc | exact Ho].
Qed.

Lemma build_dataset_index_cached_witness :
  let fs : FileSystem := fun _ => Some [] in
  let gone : FileSystem := fun _ => None in
  let st1 := mkState (<[lit "/d.csv" := empty_index]> ∅) [lit "/d.csv"] in
  let st2 := run_builds [(fs, lit "/e.csv"); (gone, lit "/d.csv")] st1 in
  build_dataset_index gone (lit "/d.csv") st2 = (Ok empty_index, st2)
  /\ times_opened (lit "/d.csv") st2
     = times_opened (lit "/d.csv") st1.
Proof.
  intros fs gone st1 st2.
  apply (build_dataset_index_cached fs (lit "/d.csv") (mkState ∅ []) st1 empty_index).
  reflexivity.
Defined.

(** ** The query extractor: lead-in phrases and the final trim *)

(** C4. The final step strips the letters [s], [y], [n] and [c] as well:
    the remainder [inception] begins and ends with a letter, has no lead-in
    phrase and no quote, and comes back as [inceptio]. *)
Theorem final_trim_removes_letters :
  findall_quoted (strip (lower (lit "inception"))) = []
  /\ strip_phrases phrases (strip (lower (lit "inception"))) = lit "inception"
  /\ strip_chars trim_set (lit "inception") = lit "inceptio"
  /\ extract_title_from_text (lit "inception") = lit "inceptio".
Proof. repeat split; vm_compute; reflexivity. Qed.

Lemma strip_phrases_none ps t :
  Forall (not_prefixed t) ps -> strip_phrases ps t = t.
Proof.
  induction 1 as [|p ps Hp _ IH]; [reflexivity|].
  change (strip_phrases ps (strip_phrase t p) = t).
  unfold strip_phrase. rewrite Hp. exact IH.
Qed.

Lemma strip_phrases_app ps qs t :
  strip_phrases (ps ++ qs) t = strip_phrases qs (strip_phrases ps t).
Proof. unfold strip_phrases. apply fold_left_app. Qed.

Lemma strip_phrases_first before p after rest :
  Forall (not_prefixed (p ++ rest)) before ->
  strip_phrases (before ++ p :: after) (p ++ rest) = strip_phrases after rest.
Proof.
  intros Hb. rewrite strip_phrases_app, (strip_phrases_none _ _ Hb).
  change (strip_phrases after (strip_phrase (p ++ rest) p) = strip_phrases after rest).
  unfold strip_phrase. rewrite startswith_app, remove_first_prefix.
  reflexivity.
Qed.

(** No lead-in phrase prefixes an empty remainder or one that begins with
    a space. *)
Lemma phrases_not_prefixed rest :
  rest = [] \/ (exists r, rest = space :: r) ->
  Forall (not_prefixed rest) phrases.
Proof.
  intros [-> | [r ->]]; repeat constructor.
Qed.

(** C3, counterexample.  The utterance [what isplot of up] has no quoted
    part; [what is] is the first listed phrase that prefixes it, and
    removing that phrase alone leaves [plot of up], which the final trim
    does not change.  The extractor answers [up]: the later phrase
    [plot of] has been removed from the remainder as well. *)
Lemma single_removal_counterexample :
  let text := lit "what isplot of up" in
  findall_quoted (strip (lower text)) = []
  /\ phrases = [lit "tell me about"] ++ lit "what is" :: skipn 2 phrases
  /\ Forall (not_prefixed (strip (lower text))) [lit "tell me about"]
  /\ strip (lower text) = lit "what is" ++ lit "plot of up"
  /\ strip_chars trim_set (lit "plot of up") = lit "plot of up"
  /\ extract_title_from_text text = lit "up"
  /\ extract_title_from_text text <> strip_chars trim_set (lit "plot of up").
Proof.
  repeat split; try (vm_compute; reflexivity).
  - repeat constructor.
  - vm_compute. discriminate.
Qed.

(** C3, as amended.  For an utterance without a quoted part, each lead-in
    phrase is tried once, in list order, on what is left at that point.
    The first listed phrase that prefixes the lowered, trimmed utterance is
    removed; the phrases listed after it are then tried on the remainder
    (those listed before it are not tried again).  When no later phrase
    prefixes the remainder, and in particular when the remainder is empty
    or begins with a space, exactly that one phrase is removed and the
    result is the trimmed remainder.  When no phrase prefixes the
    utterance, nothing is removed. *)
Theorem extract_title_strips_in_list_order (text : str) :
  findall_quoted (strip (lower text)) = [] ->
  (Forall (not_prefixed (strip (lower text))) phrases ->
   extract_title_from_text text = strip_chars trim_set (strip (lower text)))
  /\ (forall before p after rest,
        phrases = before ++ p :: after ->
        Forall (not_prefixed (strip (lower text))) before ->
        strip (lower text) = p ++ rest ->
        extract_title_from_text text
        = strip_chars trim_set (strip_phrases after rest)
        /\ (Forall (not_prefixed rest) after ->
            extract_title_from_text text = strip_chars trim_set rest)
        /\ (rest = [] \/ (exists r, rest = space :: r) ->
            extract_title_from_text text = strip_chars trim_set rest)).
Proof.
  intros Hq. unfold extract_title_from_text. rewrite Hq. split.
  - intros H. rewrite (strip_phrases_none _ _ H). reflexivity.
  - intros before p after rest Hph Hb Ht.
    assert (strip_phrases phrases (strip (lower text)) = strip_phrases after rest) as E.
    { rewrite Hph, Ht. apply strip_phrases_first. rewrite <- Ht. exact Hb. }
    rewrite E. split; [reflexivity|].
    assert (Forall (not_prefixed rest) after ->
            strip_chars trim_set (strip_phrases after rest)
            = strip_chars trim_set rest) as E1.
    { intros H. rewrite (strip_phrases_none _ _ H). reflexivity. }
    split; [exact E1|].
    intros Hrest. apply E1.
    pose proof (phrases_not_prefixed rest Hrest) as Hall.
    rewrite Hph in Hall. apply Forall_app in Hall as [_ Hall].
    inversion Hall; assumption.
Qed.

Lemma extract_title_strips_in_list_order_witness :
  extract_title_from_text (lit "what is the plot of Up") = lit "the plot of up".
Proof.
  change (lit "the plot of up")
    with (strip_chars trim_set (lit " the plot of up")).
  refine (proj2 (proj2 (proj2 (extract_title_strips_in_list_order
                                 (lit "what is the plot of Up") _)
                              [lit "tell me about"] (lit "what is")
                              (skipn 2 phrases) (lit " the plot of up") _ _ _))
                _).
  - vm_compute. reflexivity.
  - reflexivity.
  - repeat constructor.
  - vm_compute. reflexivity.
  - right. eexists. reflexivity.
Defined.

(** ** The query extractor: quoted titles *)

Lemma is_dquote_true c : is_dquote c = true <-> c = dquote.
Proof. unfold is_dquote. apply char_eqb_eq. Qed.

Lemma is_dquote_false c : is_dquote c = false <-> c <> dquote.
Proof.
  rewrite <- is_dquote_true. destruct (is_dquote c); split; congruence.
Qed.

Lemma scan_group_spec s g t :
  scan_group s = Some (g, t)
  <-> s = g ++ dquote :: t /\ Forall (fun c => c <> dquote) g.
Proof.
  revert g t. induction s as [|c r IH]; intros g t; simpl.
  - split; [discriminate|]. intros [H _]. destruct g; discriminate.
  - destruct (is_dquote c) eqn:Ec.
    + apply is_dquote_true in Ec. subst c. split.
      * intros [= <- <-]. split; [reflexivity|constructor].
      * intros [H Hg]. destruct g as [|d g]; simpl in H.
        -- injection H as ->. reflexivity.
        -- injection H as <- _. inversion Hg; subst. contradiction.
    + apply is_dquote_false in Ec. split.
      * case_eq (scan_group r); [intros [g' t'] Er|discriminate].
        intros [= <- <-]. apply IH in Er as [-> Hg].
        split; [reflexivity|constructor; assumption].
      * intros [H Hg]. destruct g as [|d g]; simpl in H.
        -- injection H as -> _. contradiction.
        -- injection H as <- H. inversion Hg; subst.
           rewrite (proj2 (IH g t)) by (split; [reflexivity|assumption]).
           reflexivity.
Qed.

Lemma match_at_spec s g t :
  match_at s = Some (g, t) <-> quoted_at s [] g t.
Proof.
  unfold quoted_at, match_at. simpl. split.
  - destruct s as [|c r]; [discriminate|].
    destruct (is_dquote c) eqn:Ec; [|discriminate].
    apply is_dquote_true in Ec. subst c.
    destruct (scan_group r) as [[[|d g'] t']|] eqn:Er; try discriminate.
    intros [= <- <-]. apply scan_group_spec in Er as [-> Hg].
    repeat split; [discriminate|exact Hg].
  - intros (-> & Hne & Hg).
    change (is_dquote dquote) with true. cbv iota.
    rewrite (proj2 (scan_group_spec (g ++ dquote :: t) g t))
      by (split; [reflexivity|assumption]).
    destruct g; [congruence|reflexivity].
Qed.

Lemma findall_from_hd fuel s :
  length s < fuel -> hd_error (findall_from fuel s) = first_group s.
Proof.
  revert s. induction fuel as [|fuel IH]; intros s Hl; [lia|].
  destruct s as [|c r]; [reflexivity|].
  cbn [findall_from first_group].
  destruct (match_at (c :: r)) as [[g t]|]; [reflexivity|].
  apply IH. simpl in Hl. lia.
Qed.

Lemma match_at_shorter s g t : match_at s = Some (g, t) -> length t < length s.
Proof.
  intros H. apply match_at_spec in H as (-> & _ & _).
  simpl. rewrite length_app. simpl. lia.
Qed.

(** The search never runs out of fuel: any fuel above the length of the
    text gives the same list. *)
Lemma findall_from_enough fuel1 :
  forall fuel2 s,
    length s < fuel1 -> length s < fuel2 ->
    findall_from fuel1 s = findall_from fuel2 s.
Proof.
  induction fuel1 as [|fuel1 IH]; intros fuel2 s H1 H2; [lia|].
  destruct fuel2 as [|fuel2]; [lia|].
  destruct s as [|c r]; [reflexivity|].
  cbn [findall_from].
  destruct (match_at (c :: r)) as [[g t]|] eqn:Em.
  - apply match_at_shorter in Em. f_equal. apply IH; lia.
  - apply IH; simpl in *; lia.
Qed.

Lemma findall_quoted_hd s : hd_error (findall_quoted s) = first_group s.
Proof. unfold findall_quoted. apply findall_from_hd. lia. Qed.

(** The leftmost match in the text is the one the search reports. *)
Lemma leftmost_match_group text body :
  leftmost_match text body -> first_group text = Some body.
Proof.
  intros (pre & post & Hq & Hleft). revert text Hq Hleft.
  induction pre as [|c pre IH]; intros text Hq Hleft.
  - destruct text as [|d r]; [destruct Hq as [Hq _]; discriminate|].
    cbn [first_group]. rewrite (proj2 (match_at_spec _ _ _) Hq). reflexivity.
  - destruct Hq as (-> & Hne & Hg). simpl app. cbn [first_group].
    destruct (match_at (c :: pre ++ dquote :: body ++ dquote :: post))
      as [[g t]|] eqn:Em.
    + apply match_at_spec in Em. apply Hleft in Em. simpl in Em. lia.
    + apply IH.
      * repeat split; assumption.
      * intros pre' body' post' (E & Hne' & Hg').
        assert (quoted_at (c :: pre ++ dquote :: body ++ dquote :: post)
                          (c :: pre') body' post') as Hq'.
        { repeat split; [simpl; rewrite E; reflexivity|assumption..]. }
        apply Hleft in Hq'. simpl in Hq'. lia.
Qed.

Lemma lower_char_dquote c : is_dquote (lower_char c) = is_dquote c.
Proof. destruct c as [[] [] [] [] [] [] [] []]; reflexivity. Qed.

Lemma isspace_not_dquote c : isspace c = true -> is_dquote c = false.
Proof. destruct c as [[] [] [] [] [] [] [] []]; vm_compute; congruence. Qed.

Lemma scan_group_lower s :
  scan_group (lower s)
  = option_map (fun gt => (lower (fst gt), lower (snd gt))) (scan_group s).
Proof.
  unfold lower. induction s as [|c r IH]; simpl; [reflexivity|].
  rewrite lower_char_dquote. destruct (is_dquote c); [reflexivity|].
  rewrite IH.
  destruct (scan_group r) as [[g t]|]; reflexivity.
Qed.

Lemma match_at_lower s :
  match_at (lower s)
  = option_map (fun gt => (lower (fst gt), lower (snd gt))) (match_at s).
Proof.
  pose proof (scan_group_lower (tl s)) as H.
  unfold lower in *. destruct s as [|c r]; simpl in *; [reflexivity|].
  rewrite lower_char_dquote. destruct (is_dquote c); [|reflexivity].
  rewrite H.
  destruct (scan_group r) as [[[|d g] t]|]; reflexivity.
Qed.

Lemma first_group_lower s :
  first_group (lower s) = option_map lower (first_group s).
Proof.
  induction s as [|c r IH]; [reflexivity|].
  change (lower (c :: r)) with (lower_char c :: lower r) at 1.
  cbn [first_group].
  change (lower_char c :: lower r) with (lower (c :: r)).
  rewrite match_at_lower.
  destruct (match_at (c :: r)) as [[g t]|]; [reflexivity|exact IH].
Qed.

Lemma first_group_lstrip s : first_group (lstrip_by isspace s) = first_group s.
Proof.
  induction s as [|c r IH]; [reflexivity|].
  simpl lstrip_by. destruct (isspace c) eqn:Ec; [|reflexivity].
  rewrite IH. simpl. rewrite (isspace_not_dquote c Ec). reflexivity.
Qed.

Lemma rstrip_by_split p s :
  exists w, s = rstrip_by p s ++ w /\ Forall (fun c => p c = true) w.
Proof.
  induction s as [|c r (w & Hr & Hw)]; simpl.
  - exists []. split; [reflexivity|constructor].
  - destruct (rstrip_by p r) as [|d r'] eqn:Er.
    + destruct (p c) eqn:Ec.
      * exists (c :: r). split; [reflexivity|].
        simpl in Hr. subst w. constructor; assumption.
      * exists w. simpl in *. split; [congruence|assumption].
    + exists w. split; [|assumption]. simpl in *. f_equal. exact Hr.
Qed.

Lemma scan_group_free w :
  Forall (fun c => is_dquote c = false) w -> scan_group w = None.
Proof.
  induction 1 as [|c w Hc _ IH]; simpl; [reflexivity|].
  rewrite Hc, IH. reflexivity.
Qed.

Lemma scan_group_app_free x w :
  Forall (fun c => is_dquote c = false) w ->
  scan_group (x ++ w)
  = option_map (fun gt => (fst gt, snd gt ++ w)) (scan_group x).
Proof.
  intros Hw. induction x as [|c r IH]; simpl.
  - apply scan_group_free. exact Hw.
  - destruct (is_dquote c); [reflexivity|].
    rewrite IH. destruct (scan_group r) as [[g t]|]; reflexivity.
Qed.

Lemma first_group_app_free x w :
  Forall (fun c => is_dquote c = false) w ->
  first_group (x ++ w) = first_group x.
Proof.
  intros Hw. induction x as [|c r IH].
  - simpl. induction Hw as [|d w Hd _ IHw]; [reflexivity|].
    simpl. rewrite Hd. exact IHw.
  - simpl. destruct (is_dquote c); [|exact IH].
    rewrite (scan_group_app_free r w Hw).
    destruct (scan_group r) as [[[|d g] t]|]; simpl; try reflexivity; exact IH.
Qed.

Lemma first_group_strip s : first_group (strip s) = first_group s.
Proof.
  unfold strip, strip_by. rewrite first_group_lstrip.
  destruct (rstrip_by_split isspace s) as (w & Hs & Hw).
  rewrite Hs at 2. symmetry. apply first_group_app_free.
  eapply List.Forall_impl; [|exact Hw]. apply isspace_not_dquote.
Qed.

(** The extractor answers with the group of the leftmost match, taken from
    the lower-cased utterance and stripped. *)
Lemma extract_title_leftmost text body :
  leftmost_match text body ->
  extract_title_from_text text = strip (lower body).
Proof.
  intros H. apply leftmost_match_group in H.
  unfold extract_title_from_text.
  pose proof (findall_quoted_hd (strip (lower text))) as Hh.
  rewrite first_group_strip, first_group_lower, H in Hh. simpl in Hh.
  destruct (findall_quoted (strip (lower text))); simpl in Hh; [discriminate|].
  congruence.
Qed.

(** ** The normaliser *)

Lemma lstrip_by_split p s :
  exists w, s = w ++ lstrip_by p s /\ Forall (fun c => p c = true) w.
Proof.
  induction s as [|c r (w & Hr & Hw)]; simpl.
  - exists []. split; [reflexivity|constructor].
  - destruct (p c) eqn:Ec.
    + exists (c :: w). split; [simpl; f_equal; exact Hr|constructor; assumption].
    + exists []. split; [reflexivity|constructor].
Qed.

(** Stripping the left end and stripping the right end commute. *)
Lemma lstrip_rstrip_comm p s :
  lstrip_by p (rstrip_by p s) = rstrip_by p (lstrip_by p s).
Proof.
  induction s as [|c r IH]; [reflexivity|].
  simpl. destruct (p c) eqn:Ec.
  - destruct (rstrip_by p r) as [|d r'] eqn:Er.
    + rewrite <- IH. reflexivity.
    + simpl. rewrite Ec. rewrite <- IH. reflexivity.
  - simpl. destruct (rstrip_by p r) as [|d r'] eqn:Er; simpl; rewrite Ec; reflexivity.
Qed.

Lemma sub_ws_runs_all_space b w :
  Forall (fun c => isspace c = true) w ->
  rstrip_by isspace (sub_ws_runs b w) = [].
Proof.
  intros Hw. revert b. induction Hw as [|c w Hc _ IH]; intros b; simpl.
  - reflexivity.
  - rewrite Hc. destruct b; [apply IH|]. simpl. rewrite IH. reflexivity.
Qed.

Lemma rstrip_sub_ws_runs_app b x w :
  Forall (fun c => isspace c = true) w ->
  rstrip_by isspace (sub_ws_runs b (x ++ w)) = rstrip_by isspace (sub_ws_runs b x).
Proof.
  intros Hw. revert b. induction x as [|c r IH]; intros b; simpl.
  - apply sub_ws_runs_all_space. exact Hw.
  - destruct (isspace c); [destruct b|]; simpl; rewrite IH; reflexivity.
Qed.

Lemma lstrip_sub_ws_runs_flag y :
  lstrip_by isspace (sub_ws_runs true y) = lstrip_by isspace (sub_ws_runs false y).
Proof.
  destruct y as [|c r]; simpl; [reflexivity|].
  destruct (isspace c); reflexivity.
Qed.

Lemma lstrip_sub_ws_runs_app b w y :
  Forall (fun c => isspace c = true) w ->
  lstrip_by isspace (sub_ws_runs b (w ++ y))
  = lstrip_by isspace (sub_ws_runs false y).
Proof.
  intros Hw. revert b. induction Hw as [|c w Hc _ IH]; intros b; simpl.
  - destruct b; [apply lstrip_sub_ws_runs_flag|reflexivity].
  - rewrite Hc. destruct b; simpl; apply IH.
Qed.

(** Whitespace around the text does not change the collapsed, trimmed
    result. *)
Lemma strip_collapse_ws_padded w1 y w2 :
  Forall (fun c => isspace c = true) w1 ->
  Forall (fun c => isspace c = true) w2 ->
  strip (collapse_ws (w1 ++ y ++ w2)) = strip (collapse_ws y).
Proof.
  intros H1 H2. unfold strip, strip_by, collapse_ws.
  rewrite app_assoc, rstrip_sub_ws_runs_app by exact H2.
  rewrite lstrip_rstrip_comm, lstrip_sub_ws_runs_app by exact H1.
  symmetry. apply lstrip_rstrip_comm.
Qed.

Lemma keep_char_space c : isspace c = true -> keep_char c = true.
Proof.
  intros H. unfold keep_char. rewrite H. apply orb_true_r.
Qed.

Lemma sub_non_alnum_spaces w :
  Forall (fun c => isspace c = true) w -> sub_non_alnum w = w.
Proof.
  unfold sub_non_alnum. induction 1 as [|c w Hc _ IH]; simpl; [reflexivity|].
  rewrite (keep_char_space c Hc). f_equal. exact IH.
Qed.

Lemma strip_split s :
  exists w1 w2,
    s = w1 ++ strip s ++ w2
    /\ Forall (fun c => isspace c = true) w1
    /\ Forall (fun c => isspace c = true) w2.
Proof.
  destruct (rstrip_by_split isspace s) as (w2 & Hs & H2).
  destruct (lstrip_by_split isspace (rstrip_by isspace s)) as (w1 & Hr & H1).
  exists w1, w2. unfold strip, strip_by. split; [|split; assumption].
  rewrite app_assoc, <- Hr. exact Hs.
Qed.

(** The trim between lower-casing and the substitutions is absorbed by the
    final one. *)
Lemma normalize_inner_strip x :
  strip (collapse_ws (sub_non_alnum (strip x)))
  = strip (collapse_ws (sub_non_alnum x)).
Proof.
  destruct (strip_split x) as (w1 & w2 & Hx & H1 & H2).
  assert (sub_non_alnum x = w1 ++ sub_non_alnum (strip x) ++ w2) as E.
  { rewrite Hx at 1. unfold sub_non_alnum. rewrite !map_app.
    fold (sub_non_alnum w1). fold (sub_non_alnum w2).
    rewrite (sub_non_alnum_spaces w1 H1), (sub_non_alnum_spaces w2 H2).
    reflexivity. }
  rewrite E. symmetry. apply strip_collapse_ws_padded; assumption.
Qed.

(** ** The index built from a dataset *)

Lemma empty_index_wf : index_wf empty_index.
Proof.
  split.
  - intros n. simpl. rewrite lookup_empty. split.
    + intros H. apply not_elem_of_empty in H. contradiction.
    + intros [x H]. discriminate.
  - intros n r. simpl. rewrite lookup_empty. discriminate.
Qed.

Lemma index_row_wf index row : index_wf index -> index_wf (index_row index row).
Proof.
  intros [Hk Hr]. unfold index_row.
  destruct (strip (get_row_value_case_insensitive row (lit "title")))
    as [|c name] eqn:En; [split; assumption|].
  assert (row <> []) as Hrow by (intros ->; discriminate).
  split; simpl.
  - intros n. rewrite elem_of_union, elem_of_singleton, Hk.
    destruct (decide (normalize_title (Some (c :: name)) = n)) as [<-|Hne].
    + rewrite lookup_insert_eq. split; [eauto|auto].
    + rewrite lookup_insert_ne by exact Hne. split; [|auto].
      intros [->|H]; [contradiction|exact H].
  - intros n r.
    destruct (decide (normalize_title (Some (c :: name)) = n)) as [<-|Hne].
    + rewrite lookup_insert_eq. intros [= <-]. exact Hrow.
    + rewrite lookup_insert_ne by exact Hne. apply Hr.
Qed.

Lemma index_rows_wf rows : index_wf (index_rows rows).
Proof.
  unfold index_rows. generalize empty_index_wf. generalize empty_index.
  induction rows as [|row rows IH]; intros index H; simpl; [exact H|].
  apply IH, index_row_wf, H.
Qed.

(** ** The resolver *)

Lemma Qltb_lt x y : Qltb x y = true <-> (x < y)%Q.
Proof.
  unfold Qltb. rewrite negb_true_iff. split.
  - intros H. apply Qnot_le_lt. intros Hle.
    apply Qle_bool_iff in Hle. congruence.
  - intros H. destruct (Qle_bool y x) eqn:E; [|reflexivity].
    apply Qle_bool_iff in E. apply Qlt_not_le in H. contradiction.
Qed.

Lemma Qltb_ge x y : Qltb x y = false <-> (y <= x)%Q.
Proof.
  unfold Qltb. rewrite negb_false_iff. apply Qle_bool_iff.
Qed.

(** The fuzzy loop over a list of titles: the score it ends with bounds the
    starting score and the score of every title visited, and the pair it
    ends with is the starting pair or a visited title with its score. *)
Lemma scan_loop_best target l best :
  let best' := fold_left (scan_step target) l best in
  (snd best <= snd best')%Q
  /\ (forall t, In t l -> (similarity target t <= snd best')%Q)
  /\ (best' = best
      \/ exists t, In t l /\ best' = (Some t, similarity target t)
                   /\ (snd best < similarity target t)%Q).
Proof.
  revert best. induction l as [|t l IH]; intros best; simpl.
  - split; [apply Qle_refl|]. split; [contradiction|left; reflexivity].
  - destruct (IH (scan_step target best t)) as (Hle & Hall & Hsel).
    assert ((snd best <= snd (scan_step target best t))%Q
            /\ (similarity target t <= snd (scan_step target best t))%Q) as [H1 H2].
    { unfold scan_step. destruct (Qltb (snd best) (similarity target t)) eqn:E; simpl.
      - apply Qltb_lt in E. split; [apply Qlt_le_weak, E|apply Qle_refl].
      - apply Qltb_ge in E. split; [apply Qle_refl|exact E]. }
    split; [eapply Qle_trans; eassumption|]. split.
    + intros u [<-|Hu]; [eapply Qle_trans; eassumption|apply Hall, Hu].
    + destruct Hsel as [E|(u & Hu & E & Hlt)].
      * rewrite E. unfold scan_step.
        destruct (Qltb (snd best) (similarity target t)) eqn:Eb.
        -- right. exists t. apply Qltb_lt in Eb. auto.
        -- left. reflexivity.
      * right. exists u. split; [right; exact Hu|]. split; [exact E|].
        eapply Qle_lt_trans; eassumption.
Qed.

(** An exact hit on a non-empty row is returned as it is; the titles and
    the order they would be scanned in play no role. *)
Lemma resolve_row_exact (iter_order : gset str -> list str)
  (target_norm : str) (index : Index) (row : Row) :
  row <> [] ->
  rows_by_norm index !! target_norm = Some row ->
  resolve_row iter_order target_norm index = Some row.
Proof.
  intros Hne H. unfold resolve_row. rewrite H.
  destruct row; [contradiction|reflexivity].
Qed.

Section Resolver.
Variable iter_order : gset str -> list str.
Hypothesis iter_order_perm : forall X : gset str, iter_order X ≡ₚ elements X.

Lemma iter_order_elem (X : gset str) t : In t (iter_order X) <-> t ∈ X.
Proof.
  rewrite <- list_elem_of_In, (iter_order_perm X). apply elem_of_elements.
Qed.

(** C1. For a dataset and a non-trivial hint, with the index built from
    the dataset: if the normalised hint is a key of [rowsByNormalizedTitle],
    the resolver returns the record stored under it, and the scan plays no
    role in the result.  If it is not a key, the titles are scanned: the
    best score bounds the score of every indexed title, it is 0 or the
    score of the title kept as best match, and the resolver returns the
    record of that title if the best score is strictly greater than 0.8 and
    nothing (NotFound) if it is not.  With no indexed row the result is
    NotFound. *)
Theorem resolve_row_spec (rows : list Row) (target_norm : str) :
  let index := index_rows rows in
  (forall r, rows_by_norm index !! target_norm = Some r ->
             resolve_row iter_order target_norm index = Some r)
  /\ (rows_by_norm index !! target_norm = None ->
      forall best_match best_score,
        fuzzy_scan iter_order target_norm index = (best_match, best_score) ->
        (forall t, t ∈ titles_set index ->
                   (similarity target_norm t <= best_score)%Q)
        /\ ((threshold < best_score)%Q ->
            exists t r,
              best_match = Some t /\ t ∈ titles_set index
              /\ best_score = similarity target_norm t
              /\ rows_by_norm index !! t = Some r
              /\ resolve_row iter_order target_norm index = Some r)
        /\ (~ (threshold < best_score)%Q ->
            resolve_row iter_order target_norm index = None))
  /\ (rows_by_norm index = ∅ ->
      resolve_row iter_order target_norm index = None).
Proof.
  intros index. destruct (index_rows_wf rows) as [Hk Hr]. fold index in Hk, Hr.
  assert (rows_by_norm index !! target_norm = None ->
      forall best_match best_score,
        fuzzy_scan iter_order target_norm index = (best_match, best_score) ->
        (forall t, t ∈ titles_set index ->
                   (similarity target_norm t <= best_score)%Q)
        /\ ((threshold < best_score)%Q ->
            exists t r,
              best_match = Some t /\ t ∈ titles_set index
              /\ best_score = similarity target_norm t
              /\ rows_by_norm index !! t = Some r
              /\ resolve_row iter_order target_norm index = Some r)
        /\ (~ (threshold < best_score)%Q ->
            resolve_row iter_order target_norm index = None)) as Hfuzzy.
  { intros Hmiss bm bs Hscan. unfold resolve_row. rewrite Hmiss, Hscan. simpl.
    unfold fuzzy_scan in Hscan.
    destruct (scan_loop_best target_norm (iter_order (titles_set index)) (None, 0%Q))
      as (Hle & Hall & Hsel).
    rewrite Hscan in Hle, Hall, Hsel. simpl in Hle, Hall, Hsel.
    split; [intros t Ht; apply Hall, iter_order_elem, Ht|]. split.
    - intros Hgt. destruct Hsel as [E|(t & Ht & E & _)].
      + injection E as _ ->. exfalso. revert Hgt. unfold threshold.
        apply Qle_not_lt. discriminate.
      + injection E as -> ->. apply iter_order_elem in Ht.
        destruct (proj1 (Hk t) Ht) as [r Hlook].
        exists t, r. repeat split; try assumption.
        rewrite (proj2 (Qltb_lt _ _) Hgt). exact Hlook.
    - intros Hngt. destruct (Qltb threshold bs) eqn:E; [|reflexivity].
      apply Qltb_lt in E. contradiction. }
  split; [|split; [exact Hfuzzy|]].
  - intros r Hhit. apply resolve_row_exact; [eapply Hr; exact Hhit|exact Hhit].
  - intros Hempty.
    assert (rows_by_norm index !! target_norm = None) as Hmiss
      by (rewrite Hempty; apply lookup_empty).
    destruct (fuzzy_scan iter_order target_norm index) as [bm bs] eqn:Hscan.
    destruct (Hfuzzy Hmiss bm bs eq_refl) as (_ & Hacc & Hrej).
    destruct (Qltb threshold bs) eqn:E.
    + apply Qltb_lt in E. destruct (Hacc E) as (t & r & _ & _ & _ & Hlook & _).
      rewrite Hempty, lookup_empty in Hlook. discriminate.
    + apply Hrej. intros Hlt. apply Qltb_lt in Hlt. congruence.
Qed.

End Resolver.

Lemma resolve_row_spec_witness :
  let row := [(PyStr (lit "Title"), PyStr (lit "Inception"));
              (PyStr (lit "duration"), PyStr (lit "148 min"))] in
  resolve_row elements (lit "incepton") (index_rows [row]) = Some row.
Proof.
  intros row.
  assert (forall X : gset str, elements X ≡ₚ elements X) as Hperm
    by (intros X; reflexivity).
  destruct (proj1 (proj2 (resolve_row_spec elements Hperm [row] (lit "incepton")))
                  eq_refl (Some (lit "inception")) (16 # 17)%Q eq_refl)
    as (_ & Hacc & _).
  destruct Hacc as (t & r & Et & _ & _ & Hlook & Hres); [reflexivity|].
  injection Et as <-. rewrite Hres, <- Hlook. reflexivity.
Defined.

(** ** The matcher: the table of run lengths *)

Section MatcherTable.
Variables a b : str.
Variables alo blo bhi : nat.

Local Abbreviation run := (run_len a b alo blo bhi).
Local Abbreviation prev_row := (row_before a b alo blo bhi).

Lemma hit_true x j :
  hit b x blo bhi j = true
  <-> blo <= j /\ j < bhi /\ j < length b /\ b_at b j = x /\ popular b x = false.
Proof.
  unfold hit. rewrite !andb_true_iff, Nat.leb_le, !Nat.ltb_lt, char_eqb_eq, negb_true_iff.
  tauto.
Qed.

Lemma run_len_unfold i j :
  run i j
  = if hit b (a_at a i) blo bhi j then
      S (match i, j with
         | S i', S j' => if alo <=? i' then run i' j' else 0
         | _, _ => 0
         end)
    else 0.
Proof. destruct i; reflexivity. Qed.

(** A run of length [k] ending at row [i], column [j] is made of [k] hits
    on the diagonal, inside the rows from [alo] and the columns from
    [blo]. *)
Lemma run_len_sound i j :
  alo <= i ->
  let k := run i j in
  k <= i + 1 - alo /\ k <= j + 1 - blo
  /\ (0 < k -> j < bhi /\ j < length b)
  /\ forall d, d < k ->
       a_at a (i - d) = b_at b (j - d) /\ popular b (a_at a (i - d)) = false.
Proof.
  assert (forall (P Q : nat -> Prop) k,
            (forall d, d < k -> P d) -> (forall d, d < k -> Q d) ->
            forall d, d < k -> P d /\ Q d) as both by auto.
  revert j. induction i as [|i IH]; intros j Hi k; subst k; rewrite run_len_unfold.
  - destruct (hit b (a_at a 0) blo bhi j) eqn:Eh.
    + apply hit_true in Eh as (H1 & H2 & H3 & H4 & H5).
      split; [lia|]. split; [lia|]. split; [lia|].
      intros d Hd. assert (d = 0) as -> by lia. rewrite !Nat.sub_0_r. auto.
    + split; [lia|]. split; [lia|]. split; [lia|]. intros d Hd. lia.
  - destruct (hit b (a_at a (S i)) blo bhi j) eqn:Eh.
    + apply hit_true in Eh as (H1 & H2 & H3 & H4 & H5).
      destruct j as [|j].
      * split; [lia|]. split; [lia|]. split; [lia|].
        intros d Hd. assert (d = 0) as -> by lia. rewrite !Nat.sub_0_r. auto.
      * destruct (alo <=? i) eqn:Ea.
        -- apply Nat.leb_le in Ea. destruct (IH j Ea) as (K1 & K2 & K3 & K4).
           split; [lia|]. split; [lia|]. split; [lia|].
           intros d Hd. destruct d as [|d]; [rewrite !Nat.sub_0_r; auto|].
           simpl. apply K4. lia.
        -- split; [lia|]. split; [lia|]. split; [lia|].
           intros d Hd. assert (d = 0) as -> by lia. rewrite !Nat.sub_0_r. auto.
    + split; [lia|]. split; [lia|]. split; [lia|]. intros d Hd. lia.
Qed.

(** Conversely [m] hits on the diagonal up to row [i], column [j] make a
    run of length [m] at least. *)
Lemma run_len_complete i j m :
  m <= i + 1 - alo -> m <= j + 1 - blo -> j < bhi -> j < length b ->
  (forall d, d < m ->
     a_at a (i - d) = b_at b (j - d) /\ popular b (a_at a (i - d)) = false) ->
  m <= run i j.
Proof.
  revert j m. induction i as [|i IH]; intros j m Hi Hj Hb Hl Hd;
    rewrite run_len_unfold.
  - destruct m as [|m]; [lia|].
    destruct (Hd 0 ltac:(lia)) as [E P]. rewrite ?Nat.sub_0_r in E. rewrite ?Nat.sub_0_r in P.
    rewrite (proj2 (hit_true _ _)) by (repeat split; auto; lia || (symmetry; exact E)). lia.
  - destruct m as [|m]; [lia|].
    destruct (Hd 0 ltac:(lia)) as [E P]. rewrite ?Nat.sub_0_r in E. rewrite ?Nat.sub_0_r in P.
    rewrite (proj2 (hit_true _ _)) by (repeat split; auto; lia || (symmetry; exact E)).
    destruct m as [|m]; [lia|].
    destruct j as [|j]; [lia|].
    assert (alo <= i) as Ha by lia.
    rewrite (proj2 (Nat.leb_le _ _) Ha).
    apply le_n_S. apply IH; try lia.
    intros d Hlt. specialize (Hd (S d) ltac:(lia)). simpl in Hd. exact Hd.
Qed.

Lemma better_zero best i j : better best i j 0 = best.
Proof. destruct best as [[bi bj] bs]. reflexivity. Qed.

Lemma cell_steps_idle i js best :
  (forall j, In j js -> run i j = 0) ->
  fold_left (cell_step a b alo blo bhi i) js best = best.
Proof.
  revert best. induction js as [|j js IH]; intros best H; simpl; [reflexivity|].
  unfold cell_step at 2. rewrite (H j) by (left; reflexivity).
  rewrite better_zero. apply IH. intros j' Hj'. apply H. right. exact Hj'.
Qed.

Lemma run_len_hit i j (j2len : nat -> nat) :
  (forall y, j2len y = prev_row i y) ->
  hit b (a_at a i) blo bhi j = true ->
  j2lenget j2len j + 1 = run i j.
Proof.
  intros Hp Hh. rewrite run_len_unfold, Hh. unfold j2lenget.
  destruct j as [|j]; [destruct i; reflexivity|].
  rewrite Hp. unfold prev_row. destruct i as [|i]; lia.
Qed.

(** The inner loop over the indices of [a[i]] in [b], started at column
    [j0]: it does what the cell-by-cell scan of the columns from [j0] does,
    and leaves the run lengths of row [i] in the new [j2len]. *)
Lemma row_loop_cells i (j2len : nat -> nat) :
  popular b (a_at a i) = false ->
  (forall y, j2len y = prev_row i y) ->
  forall s j0 newj2len best,
    j0 + length s = length b ->
    (forall d, d < length s -> nth d s zero = b_at b (j0 + d)) ->
    (forall y, j0 <= y -> newj2len y = 0) ->
    let res := row_loop (indices_from j0 (a_at a i) s) i blo bhi j2len newj2len best in
    snd res = fold_left (cell_step a b alo blo bhi i) (seq j0 (length s)) best
    /\ forall y, fst res y = if j0 <=? y then run i y else newj2len y.
Proof.
  intros Hpop Hprev. induction s as [|c s IH]; intros j0 nj best Hlen Hnth Hz.
  - simpl. split; [reflexivity|]. intros y.
    destruct (j0 <=? y) eqn:E; [|reflexivity].
    apply Nat.leb_le in E. rewrite (Hz y E). rewrite run_len_unfold.
    destruct (hit b (a_at a i) blo bhi y) eqn:Eh; [|reflexivity].
    apply hit_true in Eh. simpl in Hlen. lia.
  - assert (c = b_at b j0) as Hc.
    { specialize (Hnth 0 ltac:(simpl; lia)). simpl in Hnth.
      rewrite Nat.add_0_r in Hnth. exact Hnth. }
    assert (forall nj' best',
      (forall y, S j0 <= y -> nj' y = 0) ->
      let res := row_loop (indices_from (S j0) (a_at a i) s) i blo bhi j2len nj' best' in
      snd res = fold_left (cell_step a b alo blo bhi i) (seq (S j0) (length s)) best'
      /\ forall y, fst res y = if S j0 <=? y then run i y else nj' y) as IH'.
    { intros nj' best' Hz'. apply IH; [simpl in Hlen; lia| |exact Hz'].
      intros d Hd. specialize (Hnth (S d) ltac:(simpl; lia)). simpl in Hnth.
      rewrite Hnth. f_equal. lia. }
    assert (forall y, (if S j0 <=? y then run i y else nj y)
                      = (if j0 <=? y then run i y else nj y) \/ y = j0) as Hshift.
    { intros y. destruct (Nat.eq_dec y j0) as [-> | Hne]; [right; reflexivity|left].
      destruct (Nat.leb_spec (S j0) y), (Nat.leb_spec j0 y); try reflexivity; lia. }
    cbn [indices_from length seq fold_left].
    destruct (hit b (a_at a i) blo bhi j0) eqn:Eh.
    + (* the cell is a hit: the loop body runs *)
      pose proof Eh as Eh'. apply hit_true in Eh' as (H1 & H2 & H3 & H4 & H5).
      rewrite Hc, H4, char_eqb_refl. cbn [row_loop].
      rewrite (proj2 (Nat.ltb_ge _ _) H1).
      rewrite (proj2 (Nat.leb_gt _ _) H2).
      rewrite (run_len_hit i j0 j2len Hprev Eh).
      destruct (IH' (fun x => if x =? j0 then run i j0 else nj x)
                    (better best i j0 (run i j0))) as [R1 R2].
      { intros y Hy. rewrite (proj2 (Nat.eqb_neq y j0)) by lia. apply Hz. lia. }
      split; [exact R1|]. intros y. rewrite R2.
      destruct (Nat.eq_dec y j0) as [-> | Hne].
      * rewrite (proj2 (Nat.leb_gt _ _)) by lia. rewrite Nat.eqb_refl, Nat.leb_refl.
        reflexivity.
      * rewrite (proj2 (Nat.eqb_neq y j0)) by exact Hne.
        destruct (Hshift y) as [E|E]; [exact E|contradiction].
    + (* not a hit: the cell leaves [best] as it is *)
      assert (run i j0 = 0) as Hrun by (rewrite run_len_unfold, Eh; reflexivity).
      unfold cell_step at 2. rewrite Hrun, better_zero.
      assert (forall y, (if j0 <=? y then run i y else nj y)
                        = (if S j0 <=? y then run i y else nj y)) as Hsame.
      { intros y. destruct (Hshift y) as [E | ->]; [symmetry; exact E|].
        rewrite Nat.leb_refl, (proj2 (Nat.leb_gt _ _)) by lia.
        rewrite Hrun. symmetry. apply Hz. lia. }
      destruct (char_eqb c (a_at a i)) eqn:Ec.
      * cbn [row_loop]. destruct (j0 <? blo) eqn:Elo.
        -- destruct (IH' nj best) as [R1 R2]; [intros y Hy; apply Hz; lia|].
           split; [exact R1|]. intros y. rewrite R2. symmetry. apply Hsame.
        -- destruct (bhi <=? j0) eqn:Ehi.
           ++ (* break: no later column is inside the window *)
              cbn [fst snd]. split.
              ** symmetry. apply cell_steps_idle. intros j Hj.
                 apply in_seq in Hj. rewrite run_len_unfold.
                 destruct (hit b (a_at a i) blo bhi j) eqn:Ehj; [|reflexivity].
                 apply hit_true in Ehj. apply Nat.leb_le in Ehi. lia.
              ** intros y. destruct (j0 <=? y) eqn:E; [|reflexivity].
                 apply Nat.leb_le in E. rewrite (Hz y E). rewrite run_len_unfold.
                 destruct (hit b (a_at a i) blo bhi y) eqn:Ehy; [|reflexivity].
                 apply hit_true in Ehy. apply Nat.leb_le in Ehi. lia.
           ++ exfalso. apply char_eqb_eq in Ec.
              apply Nat.ltb_ge in Elo. apply Nat.leb_gt in Ehi.
              assert (hit b (a_at a i) blo bhi j0 = true) as Habs.
              { apply hit_true. repeat split; try lia; [simpl in Hlen; lia|congruence|exact Hpop]. }
              congruence.
      * destruct (IH' nj best) as [R1 R2]; [intros y Hy; apply Hz; lia|].
        split; [exact R1|]. intros y. rewrite R2. symmetry. apply Hsame.
Qed.
End MatcherTable.

Lemma fold_seq_inv {St : Type} (step : St -> nat -> St) (P : nat -> St -> Prop) n :
  forall i0 s0,
    P i0 s0 ->
    (forall i s, i0 <= i < i0 + n -> P i s -> P (S i) (step s i)) ->
    P (i0 + n) (fold_left step (seq i0 n) s0).
Proof.
  induction n as [|n IH]; intros i0 s0 H0 Hstep; simpl.
  - rewrite Nat.add_0_r. exact H0.
  - rewrite <- Nat.add_succ_comm. apply IH.
    + apply Hstep; [lia|exact H0].
    + intros i s Hi. apply Hstep. lia.
Qed.

Section MatcherRows.
Variables a b : str.
Variables alo blo bhi : nat.

Local Abbreviation run := (run_len a b alo blo bhi).

Lemma run_len_outside i j : length b <= j -> run i j = 0.
Proof.
  intros H. rewrite run_len_unfold.
  destruct (hit b (a_at a i) blo bhi j) eqn:Eh; [|reflexivity].
  apply hit_true in Eh. lia.
Qed.

Lemma run_len_popular i j : popular b (a_at a i) = true -> run i j = 0.
Proof.
  intros H. rewrite run_len_unfold.
  destruct (hit b (a_at a i) blo bhi j) eqn:Eh; [|reflexivity].
  apply hit_true in Eh. destruct Eh as (_ & _ & _ & _ & Hp). congruence.
Qed.

(** One row of [find_longest_match] is the scan of the cells of that row. *)
Lemma row_loop_row i (j2len : nat -> nat) best :
  (forall y, j2len y = row_before a b alo blo bhi i y) ->
  let res := row_loop (b2j b (a_at a i)) i blo bhi j2len (fun _ => 0) best in
  snd res = row_step a b alo blo bhi best i
  /\ forall y, fst res y = run i y.
Proof.
  intros Hprev. unfold b2j, row_step.
  destruct (popular b (a_at a i)) eqn:Ep.
  - simpl. split.
    + symmetry. apply cell_steps_idle. intros j _. apply run_len_popular, Ep.
    + intros y. symmetry. apply run_len_popular, Ep.
  - destruct (row_loop_cells a b alo blo bhi i j2len Ep Hprev b 0 (fun _ => 0) best)
      as [R1 R2]; [reflexivity|reflexivity|reflexivity|].
    split; [exact R1|]. intros y. rewrite R2. reflexivity.
Qed.

Lemma rows_loop_rows n :
  forall i0 (j2len : nat -> nat) best,
    alo <= i0 ->
    (forall y, j2len y = row_before a b alo blo bhi i0 y) ->
    snd (rows_loop a b (seq i0 n) blo bhi (j2len, best))
    = fold_left (row_step a b alo blo bhi) (seq i0 n) best.
Proof.
  induction n as [|n IH]; intros i0 j2len best Hi Hprev; [reflexivity|].
  unfold rows_loop in *. cbn [seq fold_left fst snd].
  destruct (row_loop_row i0 j2len best Hprev) as [R1 R2].
  destruct (row_loop (b2j b (a_at a i0)) i0 blo bhi j2len (fun _ => 0) best)
    as [nj best'] eqn:E.
  simpl in R1, R2. subst best'. apply IH; [lia|].
  intros y. rewrite R2. unfold row_before.
  rewrite (proj2 (Nat.leb_le _ _) Hi). reflexivity.
Qed.

Lemma row_before_first y : row_before a b alo blo bhi alo y = 0.
Proof.
  unfold row_before. destruct alo as [|i]; [reflexivity|].
  rewrite (proj2 (Nat.leb_gt _ _)) by lia. reflexivity.
Qed.

(** The table phase of [find_longest_match]: the rows [alo..ahi) scanned
    cell by cell. *)
Lemma table_phase ahi :
  snd (rows_loop a b (seq alo (ahi - alo)) blo bhi (fun _ => 0, (alo, blo, 0)))
  = fold_left (row_step a b alo blo bhi) (seq alo (ahi - alo)) (alo, blo, 0).
Proof.
  apply rows_loop_rows; [lia|]. intros y. symmetry. apply row_before_first.
Qed.

Local Abbreviation best_ok := (best_ok a b alo blo bhi).
Local Abbreviation best_from := (best_from a b alo blo bhi).

Lemma better_ok ahi best i j :
  alo <= i < ahi -> blo <= bhi ->
  best_ok ahi best ->
  best_ok ahi (better best i j (run i j))
  /\ block_size best <= block_size (better best i j (run i j))
  /\ run i j <= block_size (better best i j (run i j)).
Proof.
  intros Hi Hb Hok. destruct best as [[bi bj] bs]. unfold better, block_size.
  destruct (Nat.ltb_spec bs (run i j)) as [Hlt|Hge]; simpl; [|auto with arith].
  split; [|lia].
  destruct (run_len_sound a b alo blo bhi i j ltac:(lia)) as (K1 & K2 & K3 & K4).
  destruct K3 as [K3 K3']; [lia|].
  split; [lia|]. split; [lia|]. split; [lia|]. split; [lia|].
  intros d Hd. specialize (K4 (run i j - 1 - d) ltac:(lia)).
  replace (i - (run i j - 1 - d)) with (i + 1 - run i j + d) in K4 by lia.
  replace (j - (run i j - 1 - d)) with (j + 1 - run i j + d) in K4 by lia.
  exact K4.
Qed.

(** The cell a block was taken from is the first one, row by row, whose
    run is that long. *)
Lemma better_from ahi best i j :
  alo <= i < ahi ->
  (forall i' j', alo <= i' < i -> run i' j' <= block_size best) ->
  (forall j', j' < j -> run i j' <= block_size best) ->
  best_from ahi best ->
  best_from ahi (better best i j (run i j)).
Proof.
  intros Hi Hrows Hcols Hfrom. destruct best as [[bi bj] bs].
  unfold better, block_size in *. simpl in Hrows, Hcols.
  destruct (Nat.ltb_spec bs (run i j)) as [Hlt|Hge]; [|exact Hfrom].
  right. exists i, j. split; [exact Hi|]. split; [reflexivity|]. split; [lia|].
  split.
  - intros i' j' Hi'. specialize (Hrows i' j' Hi'). lia.
  - intros j' Hj'. specialize (Hcols j' Hj'). lia.
Qed.

Lemma row_step_ok ahi best i :
  alo <= i < ahi -> blo <= bhi ->
  best_ok ahi best ->
  best_from ahi best ->
  (forall i' j', alo <= i' < i -> run i' j' <= block_size best) ->
  let best' := row_step a b alo blo bhi best i in
  best_ok ahi best'
  /\ best_from ahi best'
  /\ block_size best <= block_size best'
  /\ forall j, run i j <= block_size best'.
Proof.
  intros Hi Hb Hok Hfrom Hrows best'.
  assert (best_ok ahi best'
          /\ best_from ahi best'
          /\ block_size best <= block_size best'
          /\ forall j, j < 0 + length b -> run i j <= block_size best') as H.
  { subst best'. unfold row_step.
    apply (fold_seq_inv (cell_step a b alo blo bhi i)
             (fun j s => best_ok ahi s /\ best_from ahi s
                         /\ block_size best <= block_size s
                         /\ forall j', j' < j -> run i j' <= block_size s)).
    - split; [exact Hok|]. split; [exact Hfrom|]. split; [lia|]. intros j' Hj'. lia.
    - intros j s _ (S1 & S0 & S2 & S3). unfold cell_step.
      destruct (better_ok ahi s i j Hi Hb S1) as (B1 & B2 & B3).
      split; [exact B1|]. split.
      { apply better_from; try assumption.
        intros i' j' Hi'. specialize (Hrows i' j' Hi'). lia. }
      split; [lia|].
      intros j' Hj'. destruct (Nat.eq_dec j' j) as [-> | Hne]; [exact B3|].
      specialize (S3 j' ltac:(lia)). lia. }
  destruct H as (H1 & H0 & H2 & H3).
  split; [exact H1|]. split; [exact H0|]. split; [exact H2|].
  intros j. destruct (Nat.lt_ge_cases j (length b)) as [Hlt|Hge].
  - apply H3. lia.
  - rewrite run_len_outside by exact Hge. lia.
Qed.

(** After the table phase the best block is in the window, made of hits,
    taken from the first cell with a run that long, and no run in the
    window is longer. *)
Lemma table_ok ahi :
  alo <= ahi -> blo <= bhi ->
  let best := fold_left (row_step a b alo blo bhi) (seq alo (ahi - alo)) (alo, blo, 0) in
  best_ok ahi best
  /\ best_from ahi best
  /\ forall i j, alo <= i < ahi -> run i j <= block_size best.
Proof.
  intros Ha Hb best.
  assert (best_ok ahi best /\ best_from ahi best
          /\ forall i j, alo <= i < alo + (ahi - alo) -> run i j <= block_size best) as H.
  { subst best.
    apply (fold_seq_inv (row_step a b alo blo bhi)
             (fun i s => best_ok ahi s /\ best_from ahi s
                         /\ forall i' j, alo <= i' < i -> run i' j <= block_size s)).
    - split; [|split; [left; reflexivity|intros; lia]]. simpl.
      split; [lia|]. split; [lia|]. split; [lia|]. split; [lia|]. intros d Hd. lia.
    - intros i s Hi (S1 & S0 & S2).
      destruct (row_step_ok ahi s i ltac:(lia) Hb S1 S0 S2) as (R1 & R0 & R2 & R3).
      split; [exact R1|]. split; [exact R0|]. intros i' j Hi'.
      destruct (Nat.eq_dec i' i) as [-> | Hne]; [apply R3|].
      specialize (S2 i' j ltac:(lia)). lia. }
  destruct H as (H1 & H0 & H2).
  split; [exact H1|]. split; [exact H0|]. intros i j Hi. apply H2. lia.
Qed.
End MatcherRows.

(** ** The matcher: find_longest_match *)

Section LongestMatch.
Variables a b : str.

Lemma extend_left_junk alo blo n best : extend_left a b true alo blo n best = best.
Proof.
  destruct n as [|n]; [reflexivity|]. destruct best as [[bi bj] bs]. simpl.
  rewrite andb_false_r. reflexivity.
Qed.

Lemma extend_right_junk ahi bhi n best : extend_right a b true ahi bhi n best = best.
Proof.
  destruct n as [|n]; [reflexivity|]. destruct best as [[bi bj] bs]. simpl.
  rewrite andb_false_r. reflexivity.
Qed.

(** The two [while] loops are over before their bound is used up: a larger
    bound gives the same block. *)
Lemma extend_left_enough junk alo blo n :
  forall extra bi bj bs,
    bi - alo <= n ->
    extend_left a b junk alo blo (n + extra) (bi, bj, bs)
    = extend_left a b junk alo blo n (bi, bj, bs).
Proof.
  induction n as [|n IH]; intros extra bi bj bs H.
  - destruct extra as [|extra]; [reflexivity|]. cbn [Nat.add extend_left].
    rewrite (proj2 (Nat.ltb_ge alo bi)) by lia. reflexivity.
  - cbn [Nat.add extend_left].
    destruct (Nat.ltb_spec alo bi) as [Hlt|Hge]; [|reflexivity].
    destruct ((blo <? bj) && Bool.eqb (isbjunk (b_at b (bj - 1))) junk
              && char_eqb (a_at a (bi - 1)) (b_at b (bj - 1))) eqn:E;
      cbn [andb] in *; rewrite <- !andb_assoc, ?E; rewrite <- !andb_assoc in E;
      rewrite E; [|reflexivity].
    apply IH. lia.
Qed.

Lemma extend_right_enough junk ahi bhi n :
  forall extra bi bj bs,
    ahi - (bi + bs) <= n ->
    extend_right a b junk ahi bhi (n + extra) (bi, bj, bs)
    = extend_right a b junk ahi bhi n (bi, bj, bs).
Proof.
  induction n as [|n IH]; intros extra bi bj bs H.
  - destruct extra as [|extra]; [reflexivity|]. cbn [Nat.add extend_right].
    rewrite (proj2 (Nat.ltb_ge (bi + bs) ahi)) by lia. reflexivity.
  - cbn [Nat.add extend_right].
    destruct (Nat.ltb_spec (bi + bs) ahi) as [Hlt|Hge]; [|reflexivity].
    destruct ((bj + bs <? bhi) && Bool.eqb (isbjunk (b_at b (bj + bs))) junk
              && char_eqb (a_at a (bi + bs)) (b_at b (bj + bs))) eqn:E;
      cbn [andb] in *; rewrite <- !andb_assoc, ?E; rewrite <- !andb_assoc in E;
      rewrite E; [|reflexivity].
    apply IH. lia.
Qed.

Lemma extend_left_ok junk alo ahi blo bhi n :
  forall best,
    block_ok a b (alo, ahi, blo, bhi) best ->
    block_ok a b (alo, ahi, blo, bhi) (extend_left a b junk alo blo n best)
    /\ block_size best <= block_size (extend_left a b junk alo blo n best).
Proof.
  induction n as [|n IH]; intros [[bi bj] bs] Hok; [split; [exact Hok|apply Nat.le_refl]|].
  cbn [extend_left].
  destruct ((alo <? bi) && (blo <? bj)
            && Bool.eqb (isbjunk (b_at b (bj - 1))) junk
            && char_eqb (a_at a (bi - 1)) (b_at b (bj - 1))) eqn:E;
    [|split; [exact Hok|apply Nat.le_refl]].
  apply andb_true_iff in E as [E E4]. apply andb_true_iff in E as [E _].
  apply andb_true_iff in E as [E1 E2].
  apply Nat.ltb_lt in E1, E2. apply char_eqb_eq in E4.
  destruct Hok as (H1 & H2 & H3 & H4 & H5).
  destruct (IH (bi - 1, bj - 1, bs + 1)) as [R1 R2].
  - split; [lia|]. split; [lia|]. split; [lia|]. split; [lia|].
    intros d Hd. destruct d as [|d].
    + rewrite !Nat.add_0_r. exact E4.
    + replace (bi - 1 + S d) with (bi + d) by lia.
      replace (bj - 1 + S d) with (bj + d) by lia. apply H5. lia.
  - split; [exact R1|]. unfold block_size in *. simpl in *. lia.
Qed.

Lemma extend_right_ok junk alo ahi blo bhi n :
  forall best,
    block_ok a b (alo, ahi, blo, bhi) best ->
    block_ok a b (alo, ahi, blo, bhi) (extend_right a b junk ahi bhi n best)
    /\ block_size best <= block_size (extend_right a b junk ahi bhi n best).
Proof.
  induction n as [|n IH]; intros [[bi bj] bs] Hok; [split; [exact Hok|apply Nat.le_refl]|].
  cbn [extend_right].
  destruct ((bi + bs <? ahi) && (bj + bs <? bhi)
            && Bool.eqb (isbjunk (b_at b (bj + bs))) junk
            && char_eqb (a_at a (bi + bs)) (b_at b (bj + bs))) eqn:E;
    [|split; [exact Hok|apply Nat.le_refl]].
  apply andb_true_iff in E as [E E4]. apply andb_true_iff in E as [E _].
  apply andb_true_iff in E as [E1 E2].
  apply Nat.ltb_lt in E1, E2. apply char_eqb_eq in E4.
  destruct Hok as (H1 & H2 & H3 & H4 & H5).
  destruct (IH (bi, bj, bs + 1)) as [R1 R2].
  - split; [lia|]. split; [lia|]. split; [lia|]. split; [lia|].
    intros d Hd. destruct (Nat.eq_dec d bs) as [-> | Hne]; [exact E4|].
    apply H5. lia.
  - split; [exact R1|]. unfold block_size in *. simpl in *. lia.
Qed.

Lemma best_ok_block_ok alo ahi blo bhi best :
  best_ok a b alo blo bhi ahi best -> block_ok a b (alo, ahi, blo, bhi) best.
Proof.
  destruct best as [[bi bj] bs]. intros (H1 & H2 & H3 & H4 & H5).
  split; [lia|]. split; [lia|]. split; [lia|]. split; [lia|].
  intros d Hd. apply H5. exact Hd.
Qed.

(** The block [find_longest_match] answers lies in the window, its two
    copies are equal, and it is as long as every run of hits in the
    window. *)
Lemma find_longest_match_ok alo ahi blo bhi :
  alo <= ahi -> blo <= bhi ->
  let x := find_longest_match a b alo ahi blo bhi in
  block_ok a b (alo, ahi, blo, bhi) x
  /\ forall i j, alo <= i < ahi -> run_len a b alo blo bhi i j <= block_size x.
Proof.
  intros Ha Hb x. subst x. unfold find_longest_match.
  rewrite table_phase, extend_left_junk, extend_right_junk.
  destruct (table_ok a b alo blo bhi ahi Ha Hb) as (T1 & _ & T2).
  apply best_ok_block_ok in T1.
  destruct (extend_left_ok false alo ahi blo bhi (ahi - alo) _ T1) as [L1 L2].
  destruct (extend_right_ok false alo ahi blo bhi (ahi - alo) _ L1) as [R1 R2].
  split; [exact R1|]. intros i j Hi. specialize (T2 i j Hi). lia.
Qed.

Lemma not_popular_short x : length b < 200 -> popular b x = false.
Proof.
  intros H. unfold popular. rewrite (proj2 (Nat.leb_gt _ _) H). reflexivity.
Qed.

(** Without popular elements no common block of the window is longer than
    the answer. *)
Lemma find_longest_match_longest alo ahi blo bhi y :
  length b < 200 ->
  alo <= ahi -> blo <= bhi -> bhi <= length b ->
  block_ok a b (alo, ahi, blo, bhi) y ->
  block_size y <= block_size (find_longest_match a b alo ahi blo bhi).
Proof.
  intros Hshort Ha Hb Hl. destruct y as [[i0 j0] m].
  intros (H1 & H2 & H3 & H4 & H5). unfold block_size at 1. simpl.
  destruct m as [|m]; [lia|].
  destruct (find_longest_match_ok alo ahi blo bhi Ha Hb) as [_ Hmax].
  specialize (Hmax (i0 + m) (j0 + m) ltac:(lia)).
  assert (S m <= run_len a b alo blo bhi (i0 + m) (j0 + m)); [|lia].
  apply run_len_complete; try lia.
  intros d Hd. split; [|apply not_popular_short, Hshort].
  replace (i0 + m - d) with (i0 + (m - d)) by lia.
  replace (j0 + m - d) with (j0 + (m - d)) by lia.
  apply H5. lia.
Qed.
End LongestMatch.

(** ** The matcher on two equal strings *)

Section EqualStrings.
Variable a : str.

Lemma table_diagonal :
  let n := length a in
  exists d s,
    fold_left (row_step a a 0 0 n) (seq 0 (n - 0)) (0, 0, 0) = (d, d, s)
    /\ d + s <= n.
Proof.
  intros n.
  destruct (table_ok a a 0 0 n n ltac:(lia) ltac:(lia)) as (Hok & Hfrom & _).
  destruct Hfrom as [E | (i & j & Hi & E & Hpos & Hrows & Hcols)].
  - exists 0, 0. rewrite E. split; [reflexivity|lia].
  - assert (i = j) as <-.
    { destruct (run_len_sound a a 0 0 n i j ltac:(lia)) as (K1 & K2 & K3 & K4).
      destruct K3 as [K3 _]; [exact Hpos|].
      destruct (Nat.lt_trichotomy i j) as [Hlt | [Heq | Hgt]]; [|exact Heq|]; exfalso.
      - specialize (Hcols i Hlt).
        assert (run_len a a 0 0 n i j <= run_len a a 0 0 n i i); [|lia].
        apply run_len_complete; try (fold n; lia).
        intros d Hd. split; [reflexivity|]. apply K4, Hd.
      - specialize (Hrows j j ltac:(lia)).
        assert (run_len a a 0 0 n i j <= run_len a a 0 0 n j j); [|lia].
        apply run_len_complete; try (fold n; lia).
        intros d Hd. split; [reflexivity|].
        destruct (K4 d Hd) as [Ke Kp]. change (b_at a (j - d)) with (a_at a (j - d)) in Ke.
        rewrite <- Ke. exact Kp. }
    rewrite E in Hok |- *. destruct Hok as (_ & H2 & _).
    eexists _, _. split; [reflexivity|exact H2].
Qed.

Lemma extend_left_equal n :
  forall d s, d <= n -> extend_left a a false 0 0 n (d, d, s) = (0, 0, s + d).
Proof.
  induction n as [|n IH]; intros d s Hd.
  - assert (d = 0) as -> by lia. rewrite Nat.add_0_r. reflexivity.
  - cbn [extend_left]. destruct d as [|d].
    + rewrite Nat.add_0_r. reflexivity.
    + rewrite (proj2 (Nat.ltb_lt 0 (S d))) by lia.
      unfold isbjunk. rewrite char_eqb_refl. cbn [andb Bool.eqb].
      replace (S d - 1) with d by lia. rewrite IH by lia. f_equal. lia.
Qed.

Lemma extend_right_equal fuel :
  forall n s, s <= n -> n - s <= fuel ->
              extend_right a a false n n fuel (0, 0, s) = (0, 0, n).
Proof.
  induction fuel as [|fuel IH]; intros n s Hs Hf.
  - assert (s = n) as -> by lia. reflexivity.
  - cbn [extend_right]. rewrite !Nat.add_0_l.
    destruct (Nat.ltb_spec s n) as [Hlt|Hge].
    + unfold isbjunk. rewrite char_eqb_refl. cbn [andb Bool.eqb].
      apply IH; lia.
    + assert (s = n) as -> by lia. reflexivity.
Qed.

(** On two equal strings the longest match of the whole window is the
    whole string, popular elements or not. *)
Lemma find_longest_match_equal :
  find_longest_match a a 0 (length a) 0 (length a) = (0, 0, length a).
Proof.
  unfold find_longest_match.
  rewrite table_phase, extend_left_junk, extend_right_junk.
  destruct table_diagonal as (d & s & E & Hds). rewrite E.
  rewrite Nat.sub_0_r, extend_left_equal by lia.
  apply extend_right_equal; lia.
Qed.

Lemma matched_in_equal m :
  matched_in a a (Some (0, length a, 0, length a)) m -> m = length a.
Proof.
  intros H. inversion H as [ | ? ? ? ? Hz | ? ? ? ? m1 m2 x Hnz Hl Hr]; subst.
  - rewrite find_longest_match_equal in Hz. symmetry. exact Hz.
  - subst x. rewrite find_longest_match_equal in *.
    unfold left_of, right_of in Hl, Hr.
    rewrite Nat.ltb_irrefl in Hl. simpl in Hl.
    rewrite Nat.add_0_l, Nat.ltb_irrefl in Hr. simpl in Hr.
    inversion Hl; inversion Hr; subst. unfold block_size. simpl. lia.
Qed.
End EqualStrings.

(** ** The matcher: the work list and the blocks *)

Section MatchingBlocks.
Variables a b : str.

Lemma sum_sizes_app l1 l2 : sum_sizes (l1 ++ l2) = sum_sizes l1 + sum_sizes l2.
Proof.
  induction l1 as [|x l1 IH]; simpl; [reflexivity|]. rewrite IH. lia.
Qed.

Lemma sum_sizes_insert x l : sum_sizes (insert_block x l) = block_size x + sum_sizes l.
Proof.
  induction l as [|y l IH]; simpl; [reflexivity|].
  destruct (block_leb x y); simpl; [reflexivity|]. rewrite IH. lia.
Qed.

Lemma sum_sizes_sort l : sum_sizes (sort_blocks l) = sum_sizes l.
Proof.
  induction l as [|x l IH]; simpl; [reflexivity|].
  rewrite sum_sizes_insert, IH. reflexivity.
Qed.

Lemma sum_sizes_collapse l :
  forall cur out,
    sum_sizes (collapse_loop l cur out)
    = sum_sizes out + block_size cur + sum_sizes l.
Proof.
  assert (forall i1 j1 k1 out,
            sum_sizes (if k1 =? 0 then out else out ++ [(i1, j1, k1)])
            = sum_sizes out + k1) as Hflush.
  { intros i1 j1 k1 out.
    destruct (Nat.eqb_spec k1 0) as [-> | Hne]; [lia|].
    rewrite sum_sizes_app. unfold block_size. simpl. lia. }
  induction l as [|[[i2 j2] k2] l IH]; intros [[i1 j1] k1] out.
  - cbn [collapse_loop]. rewrite Hflush. unfold block_size. simpl. lia.
  - cbn [collapse_loop].
    destruct ((i1 + k1 =? i2) && (j1 + k1 =? j2)).
    + rewrite IH. unfold block_size. simpl. lia.
    + rewrite IH, Hflush. unfold block_size. simpl. lia.
Qed.

(** The total [ratio] sums is the total of the blocks the work-list loop
    found: sorting and merging adjacent blocks keep it. *)
Lemma matches_blocks :
  matches a b
  = sum_sizes (blocks_loop a b (2 * length a + 1) [(0, length a, 0, length b)] []).
Proof.
  unfold matches, get_matching_blocks.
  rewrite sum_sizes_app, sum_sizes_collapse, sum_sizes_sort.
  unfold block_size. simpl. lia.
Qed.

Lemma left_of_ok w x :
  window_ok a b w -> block_ok a b w x ->
  forall w', left_of w x = Some w' -> window_ok a b w'.
Proof.
  destruct w as [[[alo ahi] blo] bhi], x as [[i j] k].
  intros (W1 & W2 & W3 & W4) (B1 & B2 & B3 & B4 & _) w'. unfold left_of.
  destruct ((alo <? i) && (blo <? j)); [|discriminate].
  intros [= <-]. simpl. lia.
Qed.

Lemma right_of_ok w x :
  window_ok a b w -> block_ok a b w x ->
  forall w', right_of w x = Some w' -> window_ok a b w'.
Proof.
  destruct w as [[[alo ahi] blo] bhi], x as [[i j] k].
  intros (W1 & W2 & W3 & W4) (B1 & B2 & B3 & B4 & _) w'. unfold right_of.
  destruct ((i + k <? ahi) && (j + k <? bhi)); [|discriminate].
  intros [= <-]. simpl. lia.
Qed.

(** The work-list loop, given fuel for the windows it holds, adds to the
    blocks found so far the blocks of every queued window. *)
Lemma blocks_loop_matched fuel :
  forall queue acc,
    queue_weight queue <= fuel ->
    Forall (window_ok a b) queue ->
    exists ms,
      Forall2 (fun w m => matched_in a b (Some w) m) queue ms
      /\ sum_sizes (blocks_loop a b fuel queue acc) = sum_sizes acc + list_sum ms.
Proof.
  induction fuel as [|fuel IH]; intros queue acc Hw Hok.
  - destruct queue as [|[[[alo ahi] blo] bhi] queue]; [|simpl in Hw; lia].
    exists []. split; [constructor|simpl; lia].
  - destruct queue as [|[[[alo ahi] blo] bhi] queue].
    { exists []. split; [constructor|simpl; lia]. }
    inversion Hok as [|? ? Hwin Hrest]; subst.
    cbn [blocks_loop]. simpl in Hw.
    pose proof Hwin as (W1 & W2 & W3 & W4).
    destruct (find_longest_match_ok a b alo ahi blo bhi W1 W3) as [Hblock _].
    pose proof (left_of_ok _ _ Hwin Hblock) as Hleft.
    pose proof (right_of_ok _ _ Hwin Hblock) as Hright.
    pose proof (matched_split a b alo ahi blo bhi) as Hsplit.
    pose proof (matched_zero a b alo ahi blo bhi) as Hzero.
    cbv zeta in Hsplit.
    destruct (find_longest_match a b alo ahi blo bhi) as [[i j] k] eqn:Ex.
    unfold block_size in Hsplit, Hzero. simpl in Hsplit, Hzero.
    destruct Hblock as (B1 & B2 & B3 & B4 & _).
    destruct (Nat.eqb_spec k 0) as [-> | Hk].
    + destruct (IH queue acc ltac:(lia) Hrest) as (ms & Hms & Hsum).
      exists (0 :: ms). split; [constructor; auto|]. simpl. exact Hsum.
    + unfold left_of in Hleft, Hsplit. unfold right_of in Hright, Hsplit.
      destruct ((alo <? i) && (blo <? j)) eqn:El;
        destruct ((i + k <? ahi) && (j + k <? bhi)) eqn:Er.
      * destruct (IH ((i + k, ahi, j + k, bhi) :: (alo, i, blo, j) :: queue)
                     (acc ++ [(i, j, k)])) as (ms & Hms & Hsum).
        { simpl. lia. }
        { constructor; [apply Hright; reflexivity|].
          constructor; [apply Hleft; reflexivity|exact Hrest]. }
        inversion Hms as [|? m2 ? ms' Hm2 Hms']; subst.
        inversion Hms' as [|? m1 ? ms'' Hm1 Hms'']; subst.
        exists (k + m1 + m2 :: ms''). split; [constructor; auto|].
        rewrite Hsum, sum_sizes_app. unfold block_size. simpl. lia.
      * destruct (IH ((alo, i, blo, j) :: queue) (acc ++ [(i, j, k)]))
          as (ms & Hms & Hsum).
        { simpl. lia. }
        { constructor; [apply Hleft; reflexivity|exact Hrest]. }
        inversion Hms as [|? m1 ? ms' Hm1 Hms']; subst.
        exists (k + m1 + 0 :: ms'). split.
        { constructor; [|exact Hms']. apply Hsplit; [exact Hk|exact Hm1|constructor]. }
        rewrite Hsum, sum_sizes_app. unfold block_size. simpl. lia.
      * destruct (IH ((i + k, ahi, j + k, bhi) :: queue) (acc ++ [(i, j, k)]))
          as (ms & Hms & Hsum).
        { simpl. lia. }
        { constructor; [apply Hright; reflexivity|exact Hrest]. }
        inversion Hms as [|? m2 ? ms' Hm2 Hms']; subst.
        exists (k + 0 + m2 :: ms'). split.
        { constructor; [|exact Hms']. apply Hsplit; [exact Hk|constructor|exact Hm2]. }
        rewrite Hsum, sum_sizes_app. unfold block_size. simpl. lia.
      * destruct (IH queue (acc ++ [(i, j, k)]) ltac:(lia) Hrest)
          as (ms & Hms & Hsum).
        exists (k + 0 + 0 :: ms). split.
        { constructor; [|exact Hms]. apply Hsplit; [exact Hk|constructor|constructor]. }
        rewrite Hsum, sum_sizes_app. unfold block_size. simpl. lia.
Qed.

(** The loop is over before the fuel is used up: with more fuel it gives
    the same blocks. *)
Lemma blocks_loop_enough fuel :
  forall extra queue acc,
    queue_weight queue <= fuel ->
    Forall (window_ok a b) queue ->
    blocks_loop a b (fuel + extra) queue acc = blocks_loop a b fuel queue acc.
Proof.
  induction fuel as [|fuel IH]; intros extra queue acc Hw Hok.
  - destruct queue as [|[[[alo ahi] blo] bhi] queue]; [|simpl in Hw; lia].
    destruct extra; reflexivity.
  - destruct queue as [|[[[alo ahi] blo] bhi] queue]; [reflexivity|].
    inversion Hok as [|? ? Hwin Hrest]; subst.
    cbn [Nat.add blocks_loop]. simpl in Hw.
    pose proof Hwin as (W1 & W2 & W3 & W4).
    destruct (find_longest_match_ok a b alo ahi blo bhi W1 W3) as [Hblock _].
    pose proof (left_of_ok _ _ Hwin Hblock) as Hleft.
    pose proof (right_of_ok _ _ Hwin Hblock) as Hright.
    destruct (find_longest_match a b alo ahi blo bhi) as [[i j] k] eqn:Ex.
    destruct Hblock as (B1 & B2 & B3 & B4 & _).
    unfold left_of in Hleft. unfold right_of in Hright.
    destruct (Nat.eqb_spec k 0) as [-> | Hk]; [apply IH; [lia|exact Hrest]|].
    destruct ((alo <? i) && (blo <? j)) eqn:El;
      destruct ((i + k <? ahi) && (j + k <? bhi)) eqn:Er;
      apply IH; simpl; try lia;
      repeat (constructor; [exact (Hright _ eq_refl) || exact (Hleft _ eq_refl)|]);
      exact Hrest.
Qed.

(** [matches] is the total of the whole window. *)
Lemma matches_matched :
  matched_in a b (Some (0, length a, 0, length b)) (matches a b).
Proof.
  rewrite matches_blocks.
  destruct (blocks_loop_matched (2 * length a + 1) [(0, length a, 0, length b)] [])
    as (ms & Hms & Hsum).
  - simpl. lia.
  - constructor; [simpl; lia|constructor].
  - inversion Hms as [|? m ? ms' Hm Hms']; subst. inversion Hms'; subst.
    rewrite Hsum. simpl. rewrite Nat.add_0_r. exact Hm.
Qed.
End MatchingBlocks.

(** ** Slices *)

Lemma firstn_add_app {A : Type} n m (l : list A) :
  firstn (n + m) l = firstn n l ++ firstn m (skipn n l).
Proof.
  revert l. induction n as [|n IH]; intros l; [reflexivity|].
  destruct l as [|x l]; simpl.
  - rewrite firstn_nil. reflexivity.
  - rewrite IH. reflexivity.
Qed.

Lemma skipn_add {A : Type} n m (l : list A) :
  skipn (n + m) l = skipn m (skipn n l).
Proof.
  revert l. induction n as [|n IH]; intros l; [reflexivity|].
  destruct l as [|x l]; simpl; [destruct m; reflexivity|apply IH].
Qed.

Lemma slice_split s lo mid hi :
  lo <= mid <= hi -> slice s lo hi = slice s lo mid ++ slice s mid hi.
Proof.
  intros H. unfold slice.
  replace (hi - lo) with ((mid - lo) + (hi - mid)) by lia.
  rewrite firstn_add_app. f_equal. f_equal.
  rewrite <- skipn_add. f_equal. lia.
Qed.

Lemma length_slice s lo hi :
  lo <= hi <= length s -> length (slice s lo hi) = hi - lo.
Proof.
  intros H. unfold slice. rewrite length_firstn, length_skipn. lia.
Qed.

Lemma nth_skipn_zero n d (s : str) : nth d (skipn n s) zero = nth (n + d) s zero.
Proof.
  revert s. induction n as [|n IH]; intros s; [reflexivity|].
  destruct s as [|c s]; simpl; [destruct d; reflexivity|apply IH].
Qed.

Lemma nth_firstn_zero n d (s : str) : d < n -> nth d (firstn n s) zero = nth d s zero.
Proof.
  revert d s. induction n as [|n IH]; intros d s H; [lia|].
  destruct s as [|c s]; [reflexivity|]. destruct d as [|d]; [reflexivity|].
  simpl. apply IH. lia.
Qed.

Lemma nth_slice s lo hi d :
  lo + d < hi -> nth d (slice s lo hi) zero = nth (lo + d) s zero.
Proof.
  intros H. unfold slice. rewrite nth_firstn_zero by lia. apply nth_skipn_zero.
Qed.

Lemma slice_all (s : str) : slice s 0 (length s) = s.
Proof. unfold slice. rewrite Nat.sub_0_r. simpl. apply firstn_all. Qed.

Lemma slice_empty s lo : slice s lo lo = [].
Proof. unfold slice. rewrite Nat.sub_diag. reflexivity. Qed.

(** ** The matcher: what the blocks of a window add up to *)

Section WindowTotals.
Variables a b : str.

Lemma matched_in_none m : matched_in a b None m -> m = 0.
Proof. intros H. inversion H. reflexivity. Qed.

(** The total of a window is at most the width of the window on either
    side; when it is the width on both sides, the two sides are equal. *)
Lemma matched_in_bounds ow m :
  matched_in a b ow m ->
  match ow with
  | None => m = 0
  | Some (alo, ahi, blo, bhi) =>
      window_ok a b (alo, ahi, blo, bhi) ->
      m <= ahi - alo /\ m <= bhi - blo
      /\ (m = ahi - alo -> m = bhi - blo ->
          forall d, d < m -> a_at a (alo + d) = b_at b (blo + d))
  end.
Proof.
  induction 1 as [ | alo ahi blo bhi Hz
                   | alo ahi blo bhi m1 m2 x Hnz Hl IHl Hr IHr ].
  - reflexivity.
  - intros _. split; [lia|]. split; [lia|]. intros _ _ d Hd. lia.
  - intros Hwin. pose proof Hwin as (W1 & W2 & W3 & W4).
    destruct (find_longest_match_ok a b alo ahi blo bhi W1 W3) as [Hblock _].
    fold x in Hblock.
    pose proof (left_of_ok a b _ _ Hwin Hblock) as Hleft.
    pose proof (right_of_ok a b _ _ Hwin Hblock) as Hright.
    destruct x as [[i j] k]. unfold block_size in *. simpl in Hnz |- *.
    destruct Hblock as (B1 & B2 & B3 & B4 & B5).
    assert (m1 <= i - alo /\ m1 <= j - blo
            /\ (m1 = i - alo -> m1 = j - blo ->
                forall d, d < m1 -> a_at a (alo + d) = b_at b (blo + d))) as (L1 & L2 & L3).
    { unfold left_of in IHl, Hleft.
      destruct ((alo <? i) && (blo <? j)).
      - apply IHl, Hleft. reflexivity.
      - subst m1. split; [lia|]. split; [lia|]. intros _ _ d Hd. lia. }
    assert (m2 <= ahi - (i + k) /\ m2 <= bhi - (j + k)
            /\ (m2 = ahi - (i + k) -> m2 = bhi - (j + k) ->
                forall d, d < m2 -> a_at a (i + k + d) = b_at b (j + k + d)))
      as (R1 & R2 & R3).
    { unfold right_of in IHr, Hright.
      destruct ((i + k <? ahi) && (j + k <? bhi)).
      - apply IHr, Hright. reflexivity.
      - subst m2. split; [lia|]. split; [lia|]. intros _ _ d Hd. lia. }
    split; [lia|]. split; [lia|].
    intros Ea Eb d Hd.
    destruct (Nat.lt_ge_cases d (i - alo)) as [Hlo|Hlo].
    + apply L3; lia.
    + destruct (Nat.lt_ge_cases d (i - alo + k)) as [Hmid|Hhi].
      * replace (alo + d) with (i + (d - (i - alo))) by lia.
        replace (blo + d) with (j + (d - (i - alo))) by lia.
        apply B5. lia.
      * replace (alo + d) with (i + k + (d - (i - alo) - k)) by lia.
        replace (blo + d) with (j + k + (d - (i - alo) - k)) by lia.
        apply R3; lia.
Qed.

Lemma matches_le : matches a b <= length a /\ matches a b <= length b.
Proof.
  pose proof (matched_in_bounds _ _ (matches_matched a b)) as H. simpl in H.
  destruct H as (H1 & H2 & _); lia.
Qed.

Lemma matches_full :
  matches a b = length a -> matches a b = length b -> a = b.
Proof.
  intros Ha Hb.
  pose proof (matched_in_bounds _ _ (matches_matched a b)) as H. simpl in H.
  destruct H as (_ & _ & H); [lia|].
  apply (nth_ext a b zero zero); [lia|].
  intros d Hd. apply (H ltac:(lia) ltac:(lia) d). lia.
Qed.
End WindowTotals.

Lemma matches_equal a : matches a a = length a.
Proof. apply matched_in_equal, matches_matched. Qed.

(** ** The matcher and Ratcliff/Obershelp matching *)

Lemma ro_matched_nil_l y : ro_matched [] y 0.
Proof.
  apply ro_none. intros w (x1 & x2 & y1 & y2 & Ex & _).
  symmetry in Ex. apply app_eq_nil in Ex as [_ Ex].
  apply app_eq_nil in Ex as [Ex _]. exact Ex.
Qed.

Lemma ro_matched_nil_r x : ro_matched x [] 0.
Proof.
  apply ro_none. intros w (x1 & x2 & y1 & y2 & _ & Ey).
  symmetry in Ey. apply app_eq_nil in Ey as [_ Ey].
  apply app_eq_nil in Ey as [Ey _]. exact Ey.
Qed.

Lemma ro_matched_pos x y m :
  ro_matched x y m -> (exists w, w <> [] /\ common_block w x y) -> 0 < m.
Proof.
  intros H (w & Hw & Hc). destruct H as [x y Hnone | x1 w0 x2 y1 y2 m1 m2 Hw0 _ _ _].
  - exfalso. apply Hw, Hnone, Hc.
  - destruct w0; [contradiction|simpl; lia].
Qed.

Section Refinement.
Variables a b : str.

(** A common block of the two sides of a window, by indices. *)
Lemma common_block_ok alo ahi blo bhi w :
  window_ok a b (alo, ahi, blo, bhi) ->
  common_block w (slice a alo ahi) (slice b blo bhi) ->
  exists i j, block_ok a b (alo, ahi, blo, bhi) (i, j, length w).
Proof.
  intros (W1 & W2 & W3 & W4) (x1 & x2 & y1 & y2 & Ex & Ey).
  pose proof (f_equal (@length ascii) Ex) as Lx.
  pose proof (f_equal (@length ascii) Ey) as Ly.
  rewrite length_slice, !length_app in Lx, Ly by lia.
  exists (alo + length x1), (blo + length y1).
  split; [lia|]. split; [lia|]. split; [lia|]. split; [lia|].
  intros d Hd. unfold a_at, b_at.
  assert (nth (alo + length x1 + d) a zero = nth d w zero) as ->.
  { rewrite <- Nat.add_assoc, <- (nth_slice a alo ahi) by lia.
    rewrite Ex, app_nth2_plus, app_nth1 by exact Hd. reflexivity. }
  rewrite <- Nat.add_assoc, <- (nth_slice b blo bhi) by lia.
  rewrite Ey, app_nth2_plus, app_nth1 by exact Hd. reflexivity.
Qed.

Lemma block_slices alo ahi blo bhi i j k :
  window_ok a b (alo, ahi, blo, bhi) ->
  block_ok a b (alo, ahi, blo, bhi) (i, j, k) ->
  slice a alo ahi = slice a alo i ++ slice a i (i + k) ++ slice a (i + k) ahi
  /\ slice b blo bhi = slice b blo j ++ slice a i (i + k) ++ slice b (j + k) bhi
  /\ length (slice a i (i + k)) = k.
Proof.
  intros (W1 & W2 & W3 & W4) (B1 & B2 & B3 & B4 & B5).
  assert (slice b j (j + k) = slice a i (i + k)) as E.
  { apply (nth_ext _ _ zero zero).
    - rewrite !length_slice by lia. lia.
    - intros d Hd. rewrite length_slice in Hd by lia.
      rewrite !nth_slice by lia. symmetry. apply B5. lia. }
  split; [|split].
  - rewrite (slice_split a alo i ahi), (slice_split a i (i + k) ahi) by lia.
    reflexivity.
  - rewrite (slice_split b blo j bhi), (slice_split b j (j + k) bhi), E by lia.
    reflexivity.
  - rewrite length_slice by lia. lia.
Qed.

(** Below 200 elements in [b] nothing is popular, and the total of a
    window is a Ratcliff/Obershelp total of its two sides. *)
Lemma matched_in_ro ow m :
  length b < 200 ->
  matched_in a b ow m ->
  match ow with
  | None => True
  | Some (alo, ahi, blo, bhi) =>
      window_ok a b (alo, ahi, blo, bhi) ->
      ro_matched (slice a alo ahi) (slice b blo bhi) m
  end.
Proof.
  intros Hshort.
  induction 1 as [ | alo ahi blo bhi Hz
                   | alo ahi blo bhi m1 m2 x Hnz Hl IHl Hr IHr ].
  - exact I.
  - intros Hwin. pose proof Hwin as (W1 & W2 & W3 & W4).
    apply ro_none. intros w Hc.
    destruct (common_block_ok _ _ _ _ _ Hwin Hc) as (i & j & Hb).
    pose proof (find_longest_match_longest a b alo ahi blo bhi _
                  Hshort W1 W3 W4 Hb) as Hle.
    rewrite Hz in Hle. unfold block_size in Hle. simpl in Hle.
    destruct w; [reflexivity|simpl in Hle; lia].
  - intros Hwin. pose proof Hwin as (W1 & W2 & W3 & W4).
    destruct (find_longest_match_ok a b alo ahi blo bhi W1 W3) as [Hblock _].
    pose proof (fun y => find_longest_match_longest a b alo ahi blo bhi y
                           Hshort W1 W3 W4) as Hlongest.
    fold x in Hblock, Hlongest.
    pose proof (left_of_ok a b _ _ Hwin Hblock) as Hleft.
    pose proof (right_of_ok a b _ _ Hwin Hblock) as Hright.
    destruct x as [[i j] k]. unfold block_size in Hnz |- *.
    simpl in Hnz |- *.
    destruct (block_slices _ _ _ _ _ _ _ Hwin Hblock) as (Ea & Eb & Ek).
    destruct Hblock as (B1 & B2 & B3 & B4 & B5).
    assert (ro_matched (slice a alo i) (slice b blo j) m1) as Hm1.
    { unfold left_of in IHl, Hleft, Hl.
      destruct (Nat.ltb_spec alo i) as [Hi|Hi]; [destruct (Nat.ltb_spec blo j) as [Hj|Hj]|];
        simpl in IHl, Hleft, Hl.
      - apply IHl. exact (Hleft _ eq_refl).
      - apply matched_in_none in Hl. subst m1.
        replace j with blo by lia. rewrite slice_empty. apply ro_matched_nil_r.
      - apply matched_in_none in Hl. subst m1.
        replace i with alo by lia. rewrite slice_empty. apply ro_matched_nil_l. }
    assert (ro_matched (slice a (i + k) ahi) (slice b (j + k) bhi) m2) as Hm2.
    { unfold right_of in IHr, Hright, Hr.
      destruct (Nat.ltb_spec (i + k) ahi) as [Hi|Hi];
        [destruct (Nat.ltb_spec (j + k) bhi) as [Hj|Hj]|];
        simpl in IHr, Hright, Hr.
      - apply IHr. exact (Hright _ eq_refl).
      - apply matched_in_none in Hr. subst m2.
        replace bhi with (j + k) by lia. rewrite slice_empty. apply ro_matched_nil_r.
      - apply matched_in_none in Hr. subst m2.
        replace ahi with (i + k) by lia. rewrite slice_empty. apply ro_matched_nil_l. }
    rewrite <- Ek at 1. rewrite Ea, Eb.
    apply ro_split; [| |exact Hm1|exact Hm2].
    + intros E. rewrite E in Ek. simpl in Ek. lia.
    + intros w' Hc. rewrite <- Ea, <- Eb in Hc.
      destruct (common_block_ok _ _ _ _ _ Hwin Hc) as (i' & j' & Hb').
      rewrite Ek. exact (Hlongest _ Hb').
Qed.

Lemma matches_ro : length b < 200 -> ro_matched a b (matches a b).
Proof.
  intros Hshort.
  pose proof (matched_in_ro _ _ Hshort (matches_matched a b)) as H. simpl in H.
  rewrite !slice_all in H. apply H. lia.
Qed.
End Refinement.

(** ** The similarity score *)

Lemma Zpos_of_nat n : n <> 0 -> Z.pos (Pos.of_nat n) = Z.of_nat n.
Proof.
  intros H. rewrite <- positive_nat_Z, Nat2Pos.id by exact H. reflexivity.
Qed.

Lemma calculate_ratio_range m len :
  2 * m <= len -> (0 <= calculate_ratio m len <= 1)%Q.
Proof.
  intros H. unfold calculate_ratio. destruct len as [|len].
  - split; discriminate.
  - unfold Qle. cbn [Qnum Qden]. rewrite Zpos_of_nat by discriminate. split; lia.
Qed.

Lemma calculate_ratio_one m len :
  (calculate_ratio m len == 1)%Q <-> len = 0 \/ 2 * m = len.
Proof.
  unfold calculate_ratio. destruct len as [|len].
  - split; [auto|reflexivity].
  - unfold Qeq. cbn [Qnum Qden]. rewrite Zpos_of_nat by discriminate. split.
    + intros H. right. lia.
    + intros [H|H]; [discriminate|lia].
Qed.

(** C2, counterexample.  With 200 elements in [b] the matcher drops the
    popular ones from its index: for [ba] against 200 times [a] it finds no
    block and scores 0, although the two strings share [a], so that every
    Ratcliff/Obershelp total is positive and gives another score. *)
Lemma similarity_autojunk_counterexample :
  let a := lit "ba" in
  let b := repeat "a"%char 200 in
  (similarity a b == 0)%Q
  /\ forall m, ro_matched a b m -> ~ (similarity a b == ro_ratio m a b)%Q.
Proof.
  intros a b.
  assert (similarity a b = (0 # 202)%Q) as E by (vm_compute; reflexivity).
  rewrite E. split; [reflexivity|].
  intros m Hm Heq.
  assert (0 < m) as Hpos.
  { apply (ro_matched_pos a b m Hm). exists ["a"%char]. split; [discriminate|].
    exists ["b"%char], [], [], (repeat "a"%char 199). split; reflexivity. }
  unfold ro_ratio in Heq.
  change (length a + length b) with 202 in Heq.
  unfold Qeq in Heq. cbn [Qnum Qden] in Heq. lia.
Qed.

(** C2, as amended.  The score lies between 0 and 1 and is 1 exactly when
    the two strings are equal, for all strings.  When [b] has fewer than 200
    characters, the score is the Ratcliff/Obershelp score: twice a total
    obtained by taking a longest common contiguous block, recursing on the
    remainders to its left and to its right and adding the lengths, over
    the sum of the two lengths (1 for two empty strings). *)
Theorem similarity_ratio (a b : str) :
  (0 <= similarity a b <= 1)%Q
  /\ ((similarity a b == 1)%Q <-> a = b)
  /\ (length b < 200 ->
      exists m, ro_matched a b m /\ similarity a b = ro_ratio m a b).
Proof.
  destruct (matches_le a b) as [Ha Hb].
  unfold similarity, ratio. split; [|split].
  - apply calculate_ratio_range. lia.
  - rewrite calculate_ratio_one. split.
    + intros [H|H].
      * destruct a, b; simpl in H; try lia. reflexivity.
      * apply matches_full; lia.
    + intros <-. right. rewrite matches_equal. lia.
  - intros Hshort. exists (matches a b). split; [apply matches_ro, Hshort|].
    unfold ro_ratio, calculate_ratio.
    destruct (length a + length b); reflexivity.
Qed.

Lemma similarity_ratio_witness :
  exists m, ro_matched (lit "incepton") (lit "inception") m
            /\ similarity (lit "incepton") (lit "inception")
               = ro_ratio m (lit "incepton") (lit "inception").
Proof.
  apply (proj2 (proj2 (similarity_ratio (lit "incepton") (lit "inception")))).
  simpl. lia.
Defined.

(** * Further properties *)

(** ** The normaliser: shape of the result *)

Lemma okchar_lower c :
  is_lower_az c || is_digit c || char_eqb c space = true -> lower_char c = c.
Proof. destruct c as [[] [] [] [] [] [] [] []]; vm_compute; congruence. Qed.

Lemma okchar_keep c :
  is_lower_az c || is_digit c || char_eqb c space = true -> keep_char c = true.
Proof. destruct c as [[] [] [] [] [] [] [] []]; vm_compute; congruence. Qed.

Lemma keep_not_space c :
  keep_char c = true -> isspace c = false ->
  is_lower_az c || is_digit c || char_eqb c space = true.
Proof. destruct c as [[] [] [] [] [] [] [] []]; vm_compute; congruence. Qed.

Lemma isspace_space : isspace space = true.
Proof. reflexivity. Qed.

Lemma sub_non_alnum_keep t : Forall (fun c => keep_char c = true) (sub_non_alnum t).
Proof.
  unfold sub_non_alnum. induction t as [|c t IH]; simpl; constructor; [|exact IH].
  destruct (keep_char c) eqn:E; [exact E|reflexivity].
Qed.

Lemma sub_ws_runs_chars b t :
  Forall (fun c => keep_char c = true) t ->
  Forall (fun c => is_lower_az c || is_digit c || char_eqb c space = true)
         (sub_ws_runs b t).
Proof.
  intros H. revert b. induction H as [|c t Hc _ IH]; intros b; simpl; [constructor|].
  destruct (isspace c) eqn:Es.
  - destruct b; [apply IH|]. constructor; [reflexivity|apply IH].
  - constructor; [apply keep_not_space; assumption|apply IH].
Qed.

Lemma lstrip_by_Forall (P : ascii -> Prop) p s :
  Forall P s -> Forall P (lstrip_by p s).
Proof.
  induction 1 as [|c s Hc Hs IH]; simpl; [constructor|].
  destruct (p c); [exact IH|constructor; assumption].
Qed.

Lemma rstrip_by_Forall (P : ascii -> Prop) p s :
  Forall P s -> Forall P (rstrip_by p s).
Proof.
  induction 1 as [|c s Hc Hs IH]; simpl; [constructor|].
  destruct (rstrip_by p s) as [|d r].
  - destruct (p c); constructor; [exact Hc|constructor].
  - constructor; assumption.
Qed.

Lemma single_spaces_sub_ws_runs b t : single_spaces b (sub_ws_runs b t) = true.
Proof.
  revert b. induction t as [|c t IH]; intros b; simpl; [reflexivity|].
  destruct (isspace c) eqn:Es.
  - destruct b; [apply IH|]. simpl. apply IH.
  - simpl. rewrite Es. apply IH.
Qed.

Lemma single_spaces_weaken b s : single_spaces true s = true -> single_spaces b s = true.
Proof.
  destruct s as [|c r]; simpl; [reflexivity|].
  destruct (isspace c); [|auto]. rewrite andb_false_r. discriminate.
Qed.

Lemma single_spaces_tail b c r :
  single_spaces b (c :: r) = true -> single_spaces (isspace c) r = true.
Proof.
  simpl. destruct (isspace c); [|auto].
  intros H. apply andb_true_iff in H as [_ H]. exact H.
Qed.

Lemma single_spaces_lstrip b s :
  single_spaces b s = true -> single_spaces true (lstrip_by isspace s) = true.
Proof.
  revert b. induction s as [|c r IH]; intros b H; [reflexivity|].
  simpl lstrip_by. destruct (isspace c) eqn:Es.
  - apply single_spaces_tail in H. rewrite Es in H. apply (IH true H).
  - simpl in H |- *. rewrite Es in H |- *. exact H.
Qed.

Lemma single_spaces_rstrip b s :
  single_spaces b s = true -> single_spaces b (rstrip_by isspace s) = true.
Proof.
  revert b. induction s as [|c r IH]; intros b H; [reflexivity|].
  pose proof (single_spaces_tail _ _ _ H) as Ht. apply IH in Ht.
  simpl rstrip_by. destruct (rstrip_by isspace r) as [|d r'] eqn:Er.
  - destruct (isspace c) eqn:Es; [reflexivity|]. simpl. rewrite Es. reflexivity.
  - simpl in H |- *. destruct (isspace c).
    + apply andb_true_iff in H as [H _]. rewrite H. exact Ht.
    + exact Ht.
Qed.

Lemma rstrip_by_idem p s : rstrip_by p (rstrip_by p s) = rstrip_by p s.
Proof.
  induction s as [|c r IH]; [reflexivity|].
  simpl. destruct (rstrip_by p r) as [|d r'] eqn:Er.
  - destruct (p c) eqn:Ec; [reflexivity|]. simpl. rewrite Ec. reflexivity.
  - cbn [rstrip_by]. cbn [rstrip_by] in IH. rewrite IH. reflexivity.
Qed.

Lemma strip_by_rstrip p s : rstrip_by p (strip_by p s) = strip_by p s.
Proof.
  unfold strip_by. rewrite lstrip_rstrip_comm, rstrip_by_idem. reflexivity.
Qed.

(** Every result of the normaliser has the normalised shape. *)
Lemma normalize_title_normalized title : normalized (normalize_title title).
Proof.
  assert (normalized []) as Hnil by (repeat split; constructor).
  destruct title as [[|c s]|]; try exact Hnil.
  unfold normalize_title.
  set (x := sub_non_alnum (strip (lower (c :: s)))).
  split; [|split].
  - unfold strip, strip_by, collapse_ws.
    apply lstrip_by_Forall, rstrip_by_Forall, sub_ws_runs_chars, sub_non_alnum_keep.
  - unfold strip, strip_by, collapse_ws.
    apply (single_spaces_lstrip false), single_spaces_rstrip, single_spaces_sub_ws_runs.
  - apply strip_by_rstrip.
Qed.

Lemma lstrip_by_head p s c r : lstrip_by p s = c :: r -> p c = false.
Proof.
  induction s as [|d s IH]; simpl; [discriminate|].
  destruct (p d) eqn:Ed; [exact IH|]. intros [= <- <-]. exact Ed.
Qed.

Lemma rstrip_by_last p s r c : rstrip_by p s = r ++ [c] -> p c = false.
Proof.
  revert r. induction s as [|d s IH]; intros r; simpl.
  - destruct r; discriminate.
  - destruct (rstrip_by p s) as [|e s'] eqn:Es.
    + destruct (p d) eqn:Ed; [destruct r; discriminate|].
      destruct r as [|x r]; simpl.
      * intros [= <-]. exact Ed.
      * destruct r; discriminate.
    + destruct r as [|x r]; simpl; [discriminate|].
      intros [= <- E]. apply (IH r). exact E.
Qed.

Lemma single_spaces_no_pair s :
  forall b pre c d post,
    single_spaces b s = true -> s = pre ++ c :: d :: post ->
    isspace c = true -> isspace d = false.
Proof.
  induction s as [|x s IH]; intros b pre c d post H E Hc.
  - destruct pre; discriminate.
  - destruct pre as [|y pre]; simpl in E.
    + injection E as -> ->. simpl in H. rewrite Hc in H.
      destruct (isspace d); [|reflexivity].
      rewrite !andb_false_r in H. discriminate.
    + injection E as -> E. apply single_spaces_tail in H.
      apply (IH _ pre c d post H E Hc).
Qed.

(** X1. Whatever the title, the normalised form consists of the lowercase
    letters a-z, the digits and the space only, has no space at its
    beginning or end, and never two spaces in a row. *)
Theorem normalize_title_shape (title : option str) :
  let n := normalize_title title in
  Forall (fun c => is_lower_az c = true \/ is_digit c = true \/ c = space) n
  /\ (forall r, n <> space :: r)
  /\ (forall r, n <> r ++ [space])
  /\ (forall pre post, n <> pre ++ space :: space :: post).
Proof.
  intros n. destruct (normalize_title_normalized title) as (Hc & Hs & Hr).
  fold n in Hc, Hs, Hr. split; [|split; [|split]].
  - eapply List.Forall_impl; [|exact Hc]. intros c H.
    apply orb_true_iff in H as [H|H]; [apply orb_true_iff in H as [H|H]; auto|].
    right. right. apply char_eqb_eq. exact H.
  - intros r E. rewrite E in Hs. simpl in Hs. discriminate.
  - intros r E. rewrite E in Hr. apply rstrip_by_last in Hr. discriminate.
  - intros pre post E.
    pose proof (single_spaces_no_pair n true pre space space post Hs E isspace_space).
    discriminate.
Qed.

Lemma lstrip_by_id p s :
  (forall c r, s = c :: r -> p c = false) -> lstrip_by p s = s.
Proof.
  destruct s as [|c r]; [reflexivity|]. intros H. simpl.
  rewrite (H c r eq_refl). reflexivity.
Qed.

Lemma sub_ws_runs_id b s : single_spaces b s = true -> sub_ws_runs b s = s.
Proof.
  revert b. induction s as [|c r IH]; intros b H; [reflexivity|].
  simpl in H |- *. destruct (isspace c).
  - apply andb_true_iff in H as [H Hr]. apply andb_true_iff in H as [Hc Hb].
    apply char_eqb_eq in Hc. subst c. destruct b; [discriminate|].
    rewrite (IH true Hr). reflexivity.
  - rewrite (IH false H). reflexivity.
Qed.

Lemma normalized_fixed s : normalized s -> normalize_title (Some s) = s.
Proof.
  intros (Hc & Hs & Hr). destruct s as [|c0 s0]; [reflexivity|].
  set (s := c0 :: s0) in *. unfold normalize_title. fold s.
  assert (lower s = s) as ->.
  { unfold lower. clear Hs Hr. induction Hc as [|c t H _ IH]; [reflexivity|].
    simpl. rewrite (okchar_lower c H), IH. reflexivity. }
  assert (strip s = s) as Hstrip.
  { unfold strip, strip_by. rewrite Hr. apply lstrip_by_id.
    intros c r E. rewrite E in Hs. simpl in Hs.
    destruct (isspace c); [|reflexivity]. rewrite andb_false_r in Hs. discriminate. }
  rewrite Hstrip.
  assert (sub_non_alnum s = s) as ->.
  { unfold sub_non_alnum. clear Hs Hr Hstrip. induction Hc as [|c t H _ IH]; [reflexivity|].
    simpl. rewrite (okchar_keep c H), IH. reflexivity. }
  unfold collapse_ws. rewrite (sub_ws_runs_id false s (single_spaces_weaken false s Hs)).
  exact Hstrip.
Qed.

(** X2. Normalising is idempotent: a normalised title normalises to
    itself. *)
Theorem normalize_title_idempotent (title : option str) :
  normalize_title (Some (normalize_title title)) = normalize_title title.
Proof. apply normalized_fixed, normalize_title_normalized. Qed.

Lemma normalize_title_steps x :
  normalize_title (Some x) = strip (collapse_ws (sub_non_alnum (lower x))).
Proof.
  destruct x as [|c s]; [reflexivity|].
  unfold normalize_title. apply normalize_inner_strip.
Qed.

Lemma sub_non_alnum_lower_blank w :
  Forall (fun c => is_lower_az (lower_char c) || is_digit (lower_char c) = false) w ->
  Forall (fun c => isspace c = true) (sub_non_alnum (lower w)).
Proof.
  unfold sub_non_alnum, lower. induction 1 as [|c w Hc _ IH]; simpl; constructor;
    [|exact IH].
  unfold keep_char. rewrite Hc. simpl.
  destruct (isspace (lower_char c)) eqn:E; [exact E|reflexivity].
Qed.

(** X3. Characters around a title that are neither letters nor digits
    (punctuation, quotes, brackets, whitespace) do not change its
    normalised form. *)
Theorem normalize_title_ignores_padding (w1 s w2 : str) :
  Forall (fun c => is_lower_az (lower_char c) || is_digit (lower_char c) = false) w1 ->
  Forall (fun c => is_lower_az (lower_char c) || is_digit (lower_char c) = false) w2 ->
  normalize_title (Some (w1 ++ s ++ w2)) = normalize_title (Some s).
Proof.
  intros H1 H2. rewrite !normalize_title_steps.
  unfold lower, sub_non_alnum. rewrite !map_app.
  apply strip_collapse_ws_padded.
  - apply (sub_non_alnum_lower_blank w1 H1).
  - apply (sub_non_alnum_lower_blank w2 H2).
Qed.

Lemma normalize_title_ignores_padding_witness :
  normalize_title (Some (lit " (" ++ lit "The Matrix" ++ lit ")!"))
  = normalize_title (Some (lit "The Matrix")).
Proof.
  apply normalize_title_ignores_padding; repeat constructor.
Defined.

(** ** The query extractor: what the result is made of *)

Lemma part_of_refl s : part_of s s.
Proof. exists [], []. rewrite app_nil_r. reflexivity. Qed.

Lemma part_of_trans s t u : part_of s t -> part_of t u -> part_of s u.
Proof.
  intros (p1 & q1 & ->) (p2 & q2 & ->).
  exists (p2 ++ p1), (q1 ++ q2). rewrite <- !app_assoc. reflexivity.
Qed.

Lemma strip_by_part p s : part_of (strip_by p s) s.
Proof.
  destruct (rstrip_by_split p s) as (w2 & Hs & _).
  destruct (lstrip_by_split p (rstrip_by p s)) as (w1 & Hr & _).
  exists w1, w2. unfold strip_by. rewrite app_assoc, <- Hr. exact Hs.
Qed.

Lemma first_group_part s g :
  first_group s = Some g ->
  part_of g s /\ Forall (fun c => c <> dquote) g.
Proof.
  induction s as [|c r IH]; [discriminate|].
  cbn [first_group]. destruct (match_at (c :: r)) as [[g' t]|] eqn:Em.
  - intros [= <-]. apply match_at_spec in Em as (E & _ & Hg).
    split; [|exact Hg]. exists [dquote], (dquote :: t). exact E.
  - intros H. destruct (IH H) as [(pre & post & ->) Hg].
    split; [|exact Hg]. exists (c :: pre), post. reflexivity.
Qed.

Lemma strip_phrases_suffix ps t : exists pre, t = pre ++ strip_phrases ps t.
Proof.
  revert t. induction ps as [|p ps IH]; intros t.
  - exists []. reflexivity.
  - change (strip_phrases (p :: ps) t) with (strip_phrases ps (strip_phrase t p)).
    destruct (IH (strip_phrase t p)) as (pre & E). unfold strip_phrase in *.
    destruct (startswith t p) eqn:Es.
    + destruct (startswith_inv t p Es) as (rest & ->).
      rewrite remove_first_prefix in E |- *.
      exists (p ++ pre). rewrite <- app_assoc, <- E. reflexivity.
    + exists pre. exact E.
Qed.

Lemma findall_quoted_first t q l :
  findall_quoted t = q :: l -> first_group t = Some q.
Proof.
  intros H. rewrite <- findall_quoted_hd, H. reflexivity.
Qed.

(** X4. The extracted title is always a contiguous part of the lower-cased
    utterance: the extractor only cuts characters away, it never adds or
    changes one. *)
Theorem extract_title_part_of_utterance (text : str) :
  part_of (extract_title_from_text text) (lower text).
Proof.
  unfold extract_title_from_text.
  assert (part_of (strip (lower text)) (lower text)) as Hs by apply strip_by_part.
  destruct (findall_quoted (strip (lower text))) as [|q l] eqn:Eq.
  - eapply part_of_trans; [apply strip_by_part|].
    eapply part_of_trans; [|exact Hs].
    destruct (strip_phrases_suffix phrases (strip (lower text))) as (pre & E).
    exists pre, []. rewrite app_nil_r. exact E.
  - apply findall_quoted_first, first_group_part in Eq as [Hq _].
    eapply part_of_trans; [apply strip_by_part|].
    eapply part_of_trans; [exact Hq|exact Hs].
Qed.

Lemma strip_by_head p s c r : strip_by p s = c :: r -> p c = false.
Proof. unfold strip_by. apply lstrip_by_head. Qed.

Lemma strip_by_last p s r c : strip_by p s = r ++ [c] -> p c = false.
Proof.
  intros E. apply (rstrip_by_last p (strip_by p s) r c).
  rewrite strip_by_rstrip. exact E.
Qed.

Lemma last_elem_Forall (P : ascii -> Prop) r c : Forall P (r ++ [c]) -> P c.
Proof.
  intros H. apply Forall_app in H as [_ H]. inversion H. assumption.
Qed.

(** X5. The extracted title never begins or ends with a space or a double
    quote; when the utterance has no quoted part it begins and ends with
    none of the characters of the final trim set, the letters s, y, n, c
    included. *)
Theorem extract_title_ends (text : str) :
  let title := extract_title_from_text text in
  (forall c r, title = c :: r \/ title = r ++ [c] -> c <> space /\ c <> dquote)
  /\ (findall_quoted (strip (lower text)) = [] ->
      forall c r, title = c :: r \/ title = r ++ [c] -> in_chars trim_set c = false).
Proof.
  intros title. subst title. unfold extract_title_from_text.
  destruct (findall_quoted (strip (lower text))) as [|q l] eqn:Eq.
  - assert (forall c r,
              strip_chars trim_set (strip_phrases phrases (strip (lower text))) = c :: r
              \/ strip_chars trim_set (strip_phrases phrases (strip (lower text))) = r ++ [c] ->
              in_chars trim_set c = false) as H.
    { intros c r [E|E]; [eapply strip_by_head|eapply strip_by_last]; exact E. }
    split; [|intros _; exact H].
    intros c r E. apply H in E. split; intros ->; discriminate.
  - split; [|discriminate].
    apply findall_quoted_first, first_group_part in Eq as [_ Hq].
    assert (Forall (fun c => c <> dquote) (strip q)) as Hq'
      by (apply lstrip_by_Forall, rstrip_by_Forall, Hq).
    intros c r [E|E].
    + split.
      * intros ->. apply strip_by_head in E. discriminate.
      * rewrite E in Hq'. inversion Hq'. assumption.
    + split.
      * intros ->. apply strip_by_last in E. discriminate.
      * rewrite E in Hq'. apply (last_elem_Forall _ _ _ Hq').
Qed.

(** ** The dataset index: what it holds *)

Lemma find_snoc {A : Type} (p : A -> bool) l x :
  List.find p (l ++ [x])
  = match List.find p l with
    | Some y => Some y
    | None => if p x then Some x else None
    end.
Proof.
  induction l as [|y l IH]; simpl; [reflexivity|].
  destruct (p y); [reflexivity|exact IH].
Qed.

Lemma index_row_lookup index row n :
  rows_by_norm (index_row index row) !! n
  = if filed_under n row then Some row else rows_by_norm index !! n.
Proof.
  unfold index_row, filed_under, row_key, row_title.
  destruct (strip (get_row_value_case_insensitive row (lit "title")))
    as [|c name]; [reflexivity|].
  cbn [rows_by_norm].
  destruct (str_eqb _ n) eqn:E.
  - apply str_eqb_true in E. subst n. apply lookup_insert_eq.
  - apply str_eqb_false in E. apply lookup_insert_ne. exact E.
Qed.

Lemma index_rows_from_lookup rows :
  forall index n,
    rows_by_norm (fold_left index_row rows index) !! n
    = match List.find (filed_under n) (rev rows) with
      | Some row => Some row
      | None => rows_by_norm index !! n
      end.
Proof.
  induction rows as [|row rows IH]; intros index n; [reflexivity|].
  simpl fold_left. simpl rev. rewrite IH, find_snoc, index_row_lookup.
  destruct (List.find (filed_under n) (rev rows)); [reflexivity|].
  destruct (filed_under n row); reflexivity.
Qed.

Lemma filed_under_true n row :
  filed_under n row = true <-> row_title row <> [] /\ row_key row = n.
Proof.
  unfold filed_under. destruct (row_title row) as [|c t] eqn:E.
  - split; [discriminate|]. intros [H _]. contradiction.
  - rewrite str_eqb_true. split; [intros H; split; [discriminate|exact H]|tauto].
Qed.

(** X6. Last write wins: the record the index holds for a normalised title
    is the last row of the dataset that has a non-empty title normalising
    to it, and there is none when no row does; rows without a title are
    never indexed. *)
Theorem index_rows_last_wins (rows : list Row) (n : str) :
  rows_by_norm (index_rows rows) !! n = List.find (filed_under n) (rev rows).
Proof.
  unfold index_rows. rewrite index_rows_from_lookup. simpl.
  rewrite lookup_empty. destruct (List.find (filed_under n) (rev rows)); reflexivity.
Qed.

(** X7. The set of titles of an index is exactly the set of keys of its
    record map, and a normalised title is in it exactly when some row of
    the dataset has a non-empty title that normalises to it. *)
Theorem index_rows_titles (rows : list Row) :
  let index := index_rows rows in
  dom (rows_by_norm index) = titles_set index
  /\ forall n, n ∈ titles_set index
               <-> exists row, In row rows /\ row_title row <> [] /\ row_key row = n.
Proof.
  intros index. destruct (index_rows_wf rows) as [Hk _]. fold index in Hk.
  split.
  - apply set_eq. intros n. rewrite elem_of_dom. symmetry. apply Hk.
  - intros n. rewrite Hk. unfold index, index_rows.
    rewrite index_rows_from_lookup. simpl. rewrite lookup_empty. split.
    + intros [row H].
      destruct (List.find (filed_under n) (rev rows)) as [row'|] eqn:E; [|discriminate].
      apply find_some in E as [Hin Hf]. exists row'.
      split; [apply in_rev; exact Hin|apply filed_under_true; exact Hf].
    + intros (row & Hin & Ht & Hkey).
      destruct (List.find (filed_under n) (rev rows)) as [row'|] eqn:E; [eauto|].
      exfalso. apply in_rev in Hin. pose proof (find_none _ _ E row Hin) as Hf.
      rewrite (proj2 (filed_under_true n row)) in Hf by (split; assumption).
      discriminate.
Qed.

(** ** The index cache: what it holds *)

Lemma build_state_cache fs path st :
  cache (snd (build_dataset_index fs path st))
  = match cache st !! path, fs path with
    | None, Some rows => <[path := index_rows rows]> (cache st)
    | _, _ => cache st
    end.
Proof.
  unfold build_dataset_index. destruct (cache st !! path); [reflexivity|].
  destruct (fs path); reflexivity.
Qed.

(** X8. After any sequence of index requests, an identifier that was not
    cached before is cached exactly when one of the requests for it found
    the dataset readable, and the cached index is the one built from the
    rows of the first such request; entries cached before stay as they
    are. *)
Theorem cache_after_builds (calls : list (FileSystem * str)) (st : State) (path : str) :
  cache (run_builds calls st) !! path
  = match cache st !! path with
    | Some index => Some index
    | None => option_map index_rows (first_read path calls)
    end.
Proof.
  revert st. induction calls as [|[fs p] calls IH]; intros st.
  - simpl. destruct (cache st !! path); reflexivity.
  - change (run_builds ((fs, p) :: calls) st)
      with (run_builds calls (snd (build_dataset_index fs p st))).
    rewrite IH, build_state_cache. cbn [first_read].
    destruct (str_eqb p path) eqn:E.
    + apply str_eqb_true in E. subst p.
      destruct (cache st !! path) as [i|] eqn:Ec; [rewrite Ec; reflexivity|].
      destruct (fs path) as [rows|]; [|rewrite Ec; reflexivity].
      rewrite lookup_insert_eq. reflexivity.
    + apply str_eqb_false in E.
      destruct (cache st !! p) as [i|]; [reflexivity|].
      destruct (fs p) as [rows|]; [|reflexivity].
      rewrite lookup_insert_ne by exact E. reflexivity.
Qed.

(** X9. A request fails exactly when the identifier is not cached and the
    dataset cannot be read; the failure leaves the cache as it was (no
    empty or partial index is stored), so that a later request that finds
    the dataset readable builds the index from its rows. *)
Theorem build_dataset_index_unavailable (fs : FileSystem) (path : str) (st : State) :
  (fst (build_dataset_index fs path st) = Raised
   <-> cache st !! path = None /\ fs path = None)
  /\ (fst (build_dataset_index fs path st) = Raised ->
      cache (snd (build_dataset_index fs path st)) = cache st
      /\ forall fs' rows,
           fs' path = Some rows ->
           fst (build_dataset_index fs' path (snd (build_dataset_index fs path st)))
           = Ok (index_rows rows)).
Proof.
  unfold build_dataset_index.
  destruct (cache st !! path) as [i|] eqn:Ec.
  - simpl. split; [split; [discriminate|intros [H _]; discriminate]|discriminate].
  - destruct (fs path) as [rows|] eqn:Ef; simpl.
    + split; [split; [discriminate|intros [_ H]; discriminate]|discriminate].
    + split; [split; auto|]. intros _. split; [reflexivity|].
      intros fs' rows Hf. rewrite Ec, Hf. reflexivity.
Qed.

Lemma build_dataset_index_unavailable_witness :
  let gone : FileSystem := fun _ => None in
  let back : FileSystem := fun _ => Some [] in
  let st := mkState ∅ [] in
  cache (snd (build_dataset_index gone (lit "/d.csv") st)) = cache st
  /\ fst (build_dataset_index back (lit "/d.csv")
            (snd (build_dataset_index gone (lit "/d.csv") st)))
     = Ok (index_rows []).
Proof.
  intros gone back st.
  destruct (proj2 (build_dataset_index_unavailable gone (lit "/d.csv") st) eq_refl)
    as [H1 H2].
  split; [exact H1|]. apply (H2 back []). reflexivity.
Defined.

(** ** The resolver: what it returns *)

Lemma similarity_same a : (similarity a a == 1)%Q.
Proof.
  unfold similarity, ratio. apply calculate_ratio_one.
  right. rewrite matches_equal. lia.
Qed.

Lemma index_rows_lookup_row rows n r :
  rows_by_norm (index_rows rows) !! n = Some r ->
  In r rows /\ row_title r <> [] /\ row_key r = n.
Proof.
  unfold index_rows. rewrite index_rows_from_lookup. simpl. rewrite lookup_empty.
  destruct (List.find (filed_under n) (rev rows)) as [row|] eqn:E; [|discriminate].
  intros [= <-]. apply find_some in E as [Hin Hf].
  split; [apply in_rev; exact Hin|apply filed_under_true; exact Hf].
Qed.

(** X10. The resolver never invents a record: whatever it returns is a row
    of the dataset with a non-empty title, and the normalised title of
    that row scores strictly more than 0.8 against the normalised hint (it
    scores 1 on an exact hit).  This holds for every order in which the
    titles are scanned. *)
Theorem resolve_row_sound
  (iter_order : gset str -> list str) (rows : list Row) (target_norm : str) (r : Row) :
  resolve_row iter_order target_norm (index_rows rows) = Some r ->
  In r rows /\ row_title r <> []
  /\ (threshold < similarity target_norm (row_key r))%Q.
Proof.
  unfold resolve_row.
  destruct (rows_by_norm (index_rows rows) !! target_norm) as [row|] eqn:Ehit.
  - pose proof (index_rows_lookup_row _ _ _ Ehit) as (Hin & Ht & Hk).
    assert (truthy_row (Some row) = true) as Htr.
    { destruct row; [|reflexivity]. exfalso. apply Ht. reflexivity. }
    rewrite Htr. intros [= <-]. split; [exact Hin|]. split; [exact Ht|].
    rewrite Hk. rewrite (similarity_same target_norm). reflexivity.
  - cbn [truthy_row].
    destruct (fuzzy_scan iter_order target_norm (index_rows rows)) as [bm bs] eqn:Hscan.
    unfold fuzzy_scan in Hscan.
    destruct (scan_loop_best target_norm
                (iter_order (titles_set (index_rows rows))) (None, 0%Q))
      as (_ & _ & Hsel).
    rewrite Hscan in Hsel.
    destruct (Qltb threshold bs) eqn:Egt; [|discriminate].
    apply Qltb_lt in Egt.
    destruct bm as [t|]; [|discriminate].
    intros Hlook. apply index_rows_lookup_row in Hlook as (Hin & Ht & Hk).
    split; [exact Hin|]. split; [exact Ht|].
    destruct Hsel as [E|(u & _ & E & _)]; [discriminate|].
    injection E as -> ->. rewrite Hk. exact Egt.
Qed.

Lemma resolve_row_sound_witness :
  let row := [(PyStr (lit "Title"), PyStr (lit "Inception"))] in
  In row [row] /\ row_title row <> []
  /\ (threshold < similarity (lit "incepton") (row_key row))%Q.
Proof.
  intros row. apply (resolve_row_sound elements [row] (lit "incepton") row).
  vm_compute. reflexivity.
Defined.

Lemma Qltb_equal x y z : (y == z)%Q -> Qltb x y = Qltb x z.
Proof.
  intros E. destruct (Qltb x z) eqn:Ez.
  - apply Qltb_lt. apply Qltb_lt in Ez. rewrite E. exact Ez.
  - apply Qltb_ge. apply Qltb_ge in Ez. rewrite E. exact Ez.
Qed.

Section ScanOrder.
Variables order1 order2 : gset str -> list str.
Hypothesis order1_perm : forall X : gset str, order1 X ≡ₚ elements X.
Hypothesis order2_perm : forall X : gset str, order2 X ≡ₚ elements X.

(** X11. The order in which the set of titles is scanned does not change
    the answer as long as no two different titles tie at a score above the
    threshold: two scans in different orders then return the same
    record, or both none. *)
Theorem resolve_row_order_independent (target_norm : str) (index : Index) :
  (forall t u, t ∈ titles_set index -> u ∈ titles_set index -> t <> u ->
               (threshold < similarity target_norm t)%Q ->
               ~ (similarity target_norm t == similarity target_norm u)%Q) ->
  resolve_row order1 target_norm index = resolve_row order2 target_norm index.
Proof.
  intros Hties. unfold resolve_row.
  destruct (truthy_row (rows_by_norm index !! target_norm)); [reflexivity|].
  unfold fuzzy_scan.
  pose proof (scan_loop_best target_norm (order1 (titles_set index)) (None, 0%Q))
    as (Hle1 & Hall1 & Hsel1).
  pose proof (scan_loop_best target_norm (order2 (titles_set index)) (None, 0%Q))
    as (Hle2 & Hall2 & Hsel2).
  destruct (fold_left (scan_step target_norm) (order1 (titles_set index)) (None, 0%Q))
    as [bm1 bs1].
  destruct (fold_left (scan_step target_norm) (order2 (titles_set index)) (None, 0%Q))
    as [bm2 bs2].
  cbn [fst snd] in *.
  assert (forall t, In t (order1 (titles_set index)) <-> In t (order2 (titles_set index)))
    as Hsame.
  { intros t. rewrite (iter_order_elem order1 order1_perm),
                      (iter_order_elem order2 order2_perm). reflexivity. }
  assert (bs1 == bs2)%Q as Ebs.
  { apply Qle_antisym.
    - destruct Hsel1 as [E|(t & Ht & E & _)].
      + injection E as _ ->. exact Hle2.
      + injection E as _ ->. apply Hall2, Hsame, Ht.
    - destruct Hsel2 as [E|(t & Ht & E & _)].
      + injection E as _ ->. exact Hle1.
      + injection E as _ ->. apply Hall1, Hsame, Ht. }
  rewrite (Qltb_equal threshold bs1 bs2 Ebs).
  destruct (Qltb threshold bs2) eqn:Egt; [|reflexivity].
  apply Qltb_lt in Egt.
  destruct Hsel1 as [E1|(t1 & Ht1 & E1 & _)].
  { injection E1 as _ ->. rewrite <- Ebs in Egt. exfalso. revert Egt.
    apply Qle_not_lt. discriminate. }
  destruct Hsel2 as [E2|(t2 & Ht2 & E2 & _)].
  { injection E2 as _ ->. exfalso. revert Egt. apply Qle_not_lt. discriminate. }
  injection E1 as -> ->. injection E2 as -> ->.
  destruct (decide (t1 = t2)) as [-> | Hne]; [reflexivity|].
  exfalso. apply (Hties t1 t2); try assumption.
  - apply (iter_order_elem order1 order1_perm), Ht1.
  - apply (iter_order_elem order2 order2_perm), Ht2.
  - rewrite Ebs. exact Egt.
Qed.
End ScanOrder.

Lemma resolve_row_order_independent_witness :
  let inception := [(PyStr (lit "Title"), PyStr (lit "Inception"))] in
  let up := [(PyStr (lit "Title"), PyStr (lit "Up"))] in
  let index := index_rows [inception; up] in
  resolve_row elements (lit "incepton") index
  = resolve_row (fun X => rev (elements X)) (lit "incepton") index
  /\ resolve_row elements (lit "incepton") index = Some inception.
Proof.
  intros inception up index. split; [|vm_compute; reflexivity].
  apply resolve_row_order_independent.
  - intros X. reflexivity.
  - intros X. symmetry. apply Permutation_rev.
  - intros t u Ht Hu Hne _.
    change (titles_set index) with ({[lit "up"]} ∪ ({[lit "inception"]} ∪ ∅) : gset str)
      in Ht, Hu.
    rewrite !elem_of_union, !elem_of_singleton in Ht, Hu.
    destruct Ht as [-> | [-> | Ht]]; [| |apply not_elem_of_empty in Ht; contradiction];
      (destruct Hu as [-> | [-> | Hu]]; [| |apply not_elem_of_empty in Hu; contradiction]);
      try contradiction; vm_compute; discriminate.
Defined.

(** ** The similarity score: edge behaviour *)

(** X12. Two strings can only score above the threshold when their
    lengths are close: neither is longer than one and a half times the
    other.  A hint much shorter or longer than a title never matches it
    fuzzily. *)
Theorem similarity_accept_lengths (a b : str) :
  (threshold < similarity a b)%Q ->
  2 * length a <= 3 * length b /\ 2 * length b <= 3 * length a.
Proof.
  destruct (matches_le a b) as [Ha Hb].
  unfold similarity, ratio, calculate_ratio, threshold.
  destruct (length a + length b) as [|t] eqn:Et; [lia|].
  unfold Qlt. cbn [Qnum Qden]. rewrite Zpos_of_nat by discriminate. lia.
Qed.

Lemma similarity_accept_lengths_witness :
  2 * length (lit "incepton") <= 3 * length (lit "inception")
  /\ 2 * length (lit "inception") <= 3 * length (lit "incepton").
Proof.
  apply similarity_accept_lengths. vm_compute. reflexivity.
Defined.

Lemma calculate_ratio_zero m len :
  (calculate_ratio m len == 0)%Q <-> len <> 0 /\ m = 0.
Proof.
  unfold calculate_ratio. destruct len as [|len].
  - split; [discriminate|]. intros [H _]. contradiction.
  - unfold Qeq. cbn [Qnum Qden]. split.
    + intros H. split; [discriminate|lia].
    + intros [_ ->]. reflexivity.
Qed.

Lemma ro_matched_zero a b m :
  ro_matched a b m ->
  (m = 0 <-> forall c, In c a -> In c b -> False).
Proof.
  intros H. split.
  - intros -> c Ha Hb.
    apply in_split in Ha as (x1 & x2 & ->). apply in_split in Hb as (y1 & y2 & ->).
    assert (0 < 0); [|lia].
    apply (ro_matched_pos _ _ _ H). exists [c]. split; [discriminate|].
    exists x1, x2, y1, y2. split; reflexivity.
  - intros Hno. destruct H as [x y _ | x1 w x2 y1 y2 m1 m2 Hw _ _ _]; [reflexivity|].
    destruct w as [|c w]; [contradiction|]. exfalso. apply (Hno c).
    + apply in_or_app. right. left. reflexivity.
    + apply in_or_app. right. left. reflexivity.
Qed.

(** X13. When [b] has fewer than 200 characters, the score is 0 exactly
    when the two strings are not both empty and have no character in
    common. *)
Theorem similarity_zero (a b : str) :
  length b < 200 ->
  ((similarity a b == 0)%Q
   <-> (a <> [] \/ b <> []) /\ forall c, In c a -> In c b -> False).
Proof.
  intros Hshort. unfold similarity, ratio. rewrite calculate_ratio_zero.
  rewrite (ro_matched_zero a b _ (matches_ro a b Hshort)).
  assert (length a + length b <> 0 <-> a <> [] \/ b <> []) as ->; [|reflexivity].
  destruct a, b; simpl; split; intros H; try lia; auto; try discriminate.
  destruct H as [H|H]; contradiction.
Qed.

Lemma similarity_zero_witness :
  (similarity (lit "abc") (lit "xyz") == 0)%Q.
Proof.
  apply similarity_zero; [simpl; lia|].
  split; [left; discriminate|].
  intros c Ha Hb. simpl in Ha, Hb.
  repeat (destruct Ha as [Ha|Ha]; [subst c; repeat (destruct Hb as [Hb|Hb];
    [discriminate|]); exact Hb|]); exact Ha.
Defined.

(** ** The action and the cache *)

(** X14. Once a run of the action has obtained the index (it returned the
    event that clears the slot), no later run for which the dataset path
    resolves to the same identifier fails or touches the state again:
    whatever the slot, the utterance and the content of the files are then,
    also when the dataset can no longer be read, the run answers and leaves
    the cache and the log of opened files as they are.  ([dataset_path] is
    the resolved path, the key of the cache; a run whose path resolves to
    another identifier is not covered.) *)
Theorem run_after_index
  (iter_order : gset str -> list str) (dataset_path : str)
  (movie_title_slot : option str) (text : str) (fs : FileSystem) (st st1 : State)
  (messages : list str) (e : Event) (events : list Event) :
  run iter_order dataset_path movie_title_slot text fs st
  = (Ok (messages, e :: events), st1) ->
  forall movie_title_slot' text' fs',
  exists out,
    run iter_order dataset_path movie_title_slot' text' fs' st1 = (Ok out, st1).
Proof.
  unfold run.
  destruct (normalize_title (Some (raw_input_of movie_title_slot (lower text))));
    [discriminate|].
  destruct (build_dataset_index fs dataset_path st) as [[index|] st'] eqn:Eb;
    [|discriminate].
  intros [= _ _ _ <-]. apply build_ok_cached in Eb.
  intros slot' text' fs'.
  destruct (normalize_title (Some (raw_input_of slot' (lower text'))));
    [eexists; reflexivity|].
  rewrite (build_hit fs' dataset_path st' index Eb). eexists. reflexivity.
Qed.

Lemma run_after_index_witness :
  let fs : FileSystem := fun _ => Some [] in
  let gone : FileSystem := fun _ => None in
  let st1 := mkState (<[lit "/d.csv" := empty_index]> ∅) [lit "/d.csv"] in
  exists out,
    run elements (lit "/d.csv") (Some (lit "Up")) (lit "how long is it") gone st1
    = (Ok out, st1).
Proof.
  intros fs gone st1.
  apply (run_after_index elements (lit "/d.csv") None (lit "up") fs (mkState ∅ []) st1
           [not_found_message (lit "up")] (SlotSet (lit "movie_title") None) []).
  reflexivity.
Defined.

(** X15. The action fails exactly when the hint is not empty after
    normalisation, the dataset is not cached and its file cannot be read.
    It then utters nothing and returns no events (the exception of the
    index build is not caught), the cache stays as it was and the attempt
    to open the file is logged. *)
Theorem run_raises
  (iter_order : gset str -> list str) (dataset_path : str)
  (movie_title_slot : option str) (text : str) (fs : FileSystem) (st : State) :
  let target_norm :=
    normalize_title (Some (raw_input_of movie_title_slot (lower text))) in
  (fst (run iter_order dataset_path movie_title_slot text fs st) = Raised
   <-> target_norm <> [] /\ cache st !! dataset_path = None /\ fs dataset_path = None)
  /\ (fst (run iter_order dataset_path movie_title_slot text fs st) = Raised ->
      snd (run iter_order dataset_path movie_title_slot text fs st)
      = mkState (cache st) (opened st ++ [dataset_path])).
Proof.
  intros target_norm. unfold run. fold target_norm.
  destruct target_norm as [|c t].
  - simpl. split; [|discriminate]. split; [discriminate|]. intros [H _]. contradiction.
  - unfold build_dataset_index.
    destruct (cache st !! dataset_path) as [index|] eqn:Ec.
    + simpl. split; [|discriminate].
      split; [discriminate|]. intros (_ & H & _). discriminate.
    + destruct (fs dataset_path) as [rows|] eqn:Ef; simpl.
      * split; [|discriminate].
        split; [discriminate|]. intros (_ & _ & H). discriminate.
      * split; [|reflexivity]. split; [|reflexivity].
        intros _. split; [discriminate|]. split; reflexivity.
Qed.

Lemma run_raises_witness :
  snd (run elements (lit "/d.csv") None (lit "up") (fun _ => None) (mkState ∅ []))
  = mkState ∅ [lit "/d.csv"].
Proof.
  apply (proj2 (run_raises elements (lit "/d.csv") None (lit "up")
                           (fun _ => None) (mkState ∅ []))).
  reflexivity.
Defined.

(** ** The genre action *)

Lemma lower_char_idem c : lower_char (lower_char c) = lower_char c.
Proof. destruct c as [[] [] [] [] [] [] [] []]; reflexivity. Qed.

Lemma lower_idem s : lower (lower s) = lower s.
Proof.
  unfold lower. rewrite map_map. apply map_ext. intros c. apply lower_char_idem.
Qed.

(** X16. The genre is matched without regard to case: a slot value and its
    lower-cased form get the same reply, and the reply itself only shows
    the lower-cased genre. *)
Theorem suggest_movies_case_insensitive (genre : str) :
  suggest_movies_by_genre (Some genre) = suggest_movies_by_genre (Some (lower genre)).
Proof.
  destruct genre as [|c g]; [reflexivity|].
  unfold suggest_movies_by_genre.
  change (lower (c :: g)) with (lower_char c :: lower g) at 3.
  cbv iota beta.
  change (lower_char c :: lower g) with (lower (c :: g)).
  rewrite lower_idem. reflexivity.
Qed.

(** X17. Whenever the genre is one of the table, the reply that announces
    five movies lists exactly five titles, separated by a comma and a
    space that occur in none of the titles; the action returns no
    events. *)
Theorem suggest_movies_lists_five (genre : str) (movies : list str) :
  genre <> [] ->
  dict_get movies_by_genre (lower genre) = Some movies ->
  length movies = 5
  /\ Forall (fun m => contains m (lit ", ") = false) movies
  /\ suggest_movies_by_genre (Some genre)
     = ([UtterText (lit "Here are 5 " ++ lower genre
                        ++ lit " movies you might like: "
                        ++ join (lit ", ") movies ++ lit ".")], []).
Proof.
  intros Hne Hget.
  assert (length movies = 5
          /\ Forall (fun m => contains m (lit ", ") = false) movies) as [H5 Hsep].
  { revert Hget. generalize (lower genre). intros k.
    unfold movies_by_genre. cbn [dict_get].
    repeat (destruct (str_eqb _ k);
            [intros [= <-]; split; [reflexivity|repeat constructor]|]).
    discriminate. }
  split; [exact H5|]. split; [exact Hsep|].
  destruct genre as [|c g]; [contradiction|].
  unfold suggest_movies_by_genre. rewrite Hget. reflexivity.
Qed.

Lemma suggest_movies_lists_five_witness :
  suggest_movies_by_genre (Some (lit "Sci-Fi"))
  = ([UtterText (lit "Here are 5 sci-fi movies you might like: "
                     ++ lit "Inception, Interstellar, The Matrix, Blade Runner 2049, Arrival"
                     ++ lit ".")], []).
Proof.
  apply (suggest_movies_lists_five (lit "Sci-Fi")
           [lit "Inception"; lit "Interstellar"; lit "The Matrix";
            lit "Blade Runner 2049"; lit "Arrival"]).
  - discriminate.
  - reflexivity.
Defined.

(** * The specification's words against the code *)

(** ** The steps, one by one *)

Lemma is_whitespace_isspace c : is_whitespace c = isspace c.
Proof. destruct c as [[] [] [] [] [] [] [] []]; reflexivity. Qed.

Lemma translate_lower_char c :
  translate capital_letters small_letters c = lower_char c.
Proof. destruct c as [[] [] [] [] [] [] [] []]; vm_compute; reflexivity. Qed.

Lemma ascii_class_keep_char c :
  char_in c ascii_small_letters || char_in c ascii_digits || is_whitespace c
  = keep_char c.
Proof. destruct c as [[] [] [] [] [] [] [] []]; vm_compute; reflexivity. Qed.

Lemma to_lowercase_lower s : to_lowercase s = lower s.
Proof.
  unfold to_lowercase, lower. apply map_ext. exact translate_lower_char.
Qed.

Lemma replace_outside_sub_non_alnum s :
  replace_outside
    (fun c => char_in c ascii_small_letters || char_in c ascii_digits || is_whitespace c) s
  = sub_non_alnum s.
Proof.
  unfold replace_outside, sub_non_alnum. apply map_ext.
  intros c. rewrite ascii_class_keep_char. reflexivity.
Qed.

Lemma sub_ws_runs_after_run s :
  sub_ws_runs false s
  = match s with
    | c :: _ => if isspace c then space :: sub_ws_runs true s else sub_ws_runs true s
    | [] => sub_ws_runs true s
    end.
Proof.
  destruct s as [|c r]; [reflexivity|]. simpl. destruct (isspace c); reflexivity.
Qed.

(** Dropping all but the last character of a run gives what writing the
    space at the first one gives. *)
Lemma collapse_runs_collapse_ws s : collapse_runs s = collapse_ws s.
Proof.
  unfold collapse_ws. induction s as [|c r IH]; [reflexivity|].
  cbn [collapse_runs sub_ws_runs]. rewrite is_whitespace_isspace.
  destruct (isspace c); [|rewrite IH; reflexivity].
  destruct r as [|d r']; [reflexivity|].
  rewrite is_whitespace_isspace, IH.
  rewrite (sub_ws_runs_after_run (d :: r')).
  destruct (isspace d); reflexivity.
Qed.

Lemma drop_whitespace_lstrip s : drop_whitespace s = lstrip_by isspace s.
Proof.
  induction s as [|c r IH]; [reflexivity|].
  simpl. rewrite is_whitespace_isspace, IH. reflexivity.
Qed.

Lemma lstrip_by_app_all p w s :
  Forall (fun c => p c = true) w -> lstrip_by p (w ++ s) = lstrip_by p s.
Proof.
  induction 1 as [|c w Hc _ IH]; simpl; [reflexivity|]. rewrite Hc. exact IH.
Qed.

(** Stripping the right end is stripping the left end of the reversed
    text. *)
Lemma rev_lstrip_rev p s : rev (lstrip_by p (rev s)) = rstrip_by p s.
Proof.
  destruct (rstrip_by_split p s) as (w & Hs & Hw).
  rewrite Hs at 1. rewrite rev_app_distr.
  rewrite lstrip_by_app_all by (apply Forall_rev; exact Hw).
  rewrite lstrip_by_id; [apply rev_involutive|].
  intros c r E. apply (rstrip_by_last p s (rev r) c).
  rewrite <- (rev_involutive (rstrip_by p s)), E. reflexivity.
Qed.

Lemma trim_strip s : trim s = strip s.
Proof.
  unfold trim, strip, strip_by.
  rewrite !drop_whitespace_lstrip, rev_lstrip_rev.
  symmetry. apply lstrip_rstrip_comm.
Qed.

(** ** The normaliser *)

(** C5, counterexample.  The accented e, U+00E9, is a lowercase letter.
    Worded as in the specification, every lowercase letter is kept and
    [cafe] with that accented e normalises to itself; [normalize] keeps
    the letters a-z only, replaces the accented letter by a space and
    answers [caf]. *)
Lemma normalize_accented_counterexample :
  let e_acute := ascii_of_nat 233 in
  let title := lit "caf" ++ [e_acute] in
  char_in e_acute lowercase_letters = true
  /\ normalize_as_worded (Some title) = title
  /\ normalize_title (Some title) = lit "caf"
  /\ normalize_title (Some title) <> normalize_as_worded (Some title).
Proof.
  repeat split; try (vm_compute; reflexivity).
  vm_compute. discriminate.
Qed.

(** C5, as amended.  [normalize] lower-cases the title, replaces every
    character that is not one of the letters a-z, a digit 0-9 or whitespace
    by one space, collapses every run of whitespace to one space and trims
    leading and trailing whitespace; an absent or empty title gives the
    empty string.  The four steps are spelled out on their own, not taken
    from the code. *)
Theorem normalize_title_spec (title : option str) :
  normalize_title title = normalize_spec title
  /\ normalize_title None = []
  /\ normalize_title (Some []) = [].
Proof.
  split; [|split; reflexivity].
  destruct title as [s|]; [|reflexivity].
  unfold normalize_spec, normalize_with.
  rewrite normalize_title_steps, trim_strip, collapse_runs_collapse_ws.
  rewrite replace_outside_sub_non_alnum, to_lowercase_lower. reflexivity.
Qed.

(** ** The query extractor: quoted titles *)

Lemma pair_quotes_open s :
  forall acc body l,
    pair_quotes (Some acc) s = body :: l ->
    exists b post,
      s = b ++ dquote :: post /\ Forall (fun c => c <> dquote) b /\ body = acc ++ b.
Proof.
  induction s as [|c r IH]; intros acc body l H; [discriminate|].
  cbn [pair_quotes] in H. destruct (Ascii.eqb c dquote) eqn:Ec.
  - apply Ascii.eqb_eq in Ec. subst c. injection H as <- _.
    exists [], r. split; [reflexivity|]. split; [constructor|].
    rewrite app_nil_r. reflexivity.
  - apply Ascii.eqb_neq in Ec.
    destruct (IH _ _ _ H) as (b & post & -> & Hb & ->).
    exists (c :: b), post. split; [reflexivity|].
    split; [constructor; assumption|]. rewrite <- app_assoc. reflexivity.
Qed.

Lemma pair_quotes_first s :
  forall body l,
    pair_quotes None s = body :: l ->
    exists pre post,
      s = pre ++ dquote :: body ++ dquote :: post
      /\ Forall (fun c => c <> dquote) pre
      /\ Forall (fun c => c <> dquote) body.
Proof.
  induction s as [|c r IH]; intros body l H; [discriminate|].
  cbn [pair_quotes] in H. destruct (Ascii.eqb c dquote) eqn:Ec.
  - apply Ascii.eqb_eq in Ec. subst c.
    destruct (pair_quotes_open _ _ _ _ H) as (b & post & -> & Hb & ->).
    exists [], post. split; [reflexivity|]. split; [constructor|exact Hb].
  - apply Ascii.eqb_neq in Ec.
    destruct (IH _ _ H) as (pre & post & -> & Hpre & Hb).
    exists (c :: pre), post. split; [reflexivity|].
    split; [constructor; assumption|exact Hb].
Qed.

(** A first quoted part that is not empty is the leftmost match of the
    pattern. *)
Lemma quoted_parts_leftmost text body :
  hd_error (quoted_parts text) = Some body -> body <> [] ->
  leftmost_match text body.
Proof.
  intros H Hne. unfold quoted_parts in H.
  destruct (pair_quotes None text) as [|b l] eqn:E; [discriminate|].
  injection H as ->.
  destruct (pair_quotes_first _ _ _ E) as (pre & post & -> & Hpre & Hb).
  exists pre, post. split; [repeat split; assumption|].
  intros pre' body' post' (E' & _ & _).
  destruct (le_lt_dec (length pre) (length pre')) as [Hle|Hlt]; [exact Hle|exfalso].
  assert (nth (length pre') pre zero = dquote) as Hq.
  { rewrite <- (app_nth1 pre (dquote :: body ++ dquote :: post) zero Hlt).
    rewrite E', app_nth2, Nat.sub_diag by lia. reflexivity. }
  apply Forall_forall with (x := dquote) in Hpre; [contradiction|].
  rewrite <- Hq. apply list_elem_of_In, nth_In. exact Hlt.
Qed.

(** C7, counterexample.  In [say], an empty pair of double quotes, [then],
    and a quoted [Up], the double-quoted parts are the empty one and [Up].
    The extractor answers [then], the text between the two parts: neither
    the content of the first part nor that of the first non-empty one. *)
Lemma quoted_empty_pair_counterexample :
  let text := lit "say " ++ [dquote; dquote] ++ lit " then "
              ++ dquote :: lit "Up" ++ [dquote] in
  quoted_parts text = [[]; lit "Up"]
  /\ extract_title_from_text text = lit "then"
  /\ extract_title_from_text text <> trim (to_lowercase [])
  /\ extract_title_from_text text <> trim (to_lowercase (lit "Up")).
Proof.
  repeat split; try (vm_compute; reflexivity); vm_compute; discriminate.
Qed.

(** C7, as amended.  For every utterance whose first double-quoted part is
    not empty, the extractor answers with the content of that part,
    lower-cased and trimmed of surrounding whitespace; whatever else the
    utterance holds, lead-in phrases included, plays no role. *)
Theorem extract_title_quoted (text body : str) :
  hd_error (quoted_parts text) = Some body ->
  body <> [] ->
  extract_title_from_text text = trim (to_lowercase body).
Proof.
  intros H Hne.
  rewrite trim_strip, to_lowercase_lower.
  apply extract_title_leftmost, quoted_parts_leftmost; assumption.
Qed.

Lemma extract_title_quoted_witness :
  extract_title_from_text
    (lit "Tell me about " ++ dquote :: lit "  Die Hard " ++ dquote :: lit " please")
  = lit "die hard".
Proof.
  apply (extract_title_quoted _ (lit "  Die Hard ")).
  - reflexivity.
  - discriminate.
Defined.
